(** * The Firestore bulk writer ([firestore/bulkwriter.go])

    A shallow embedding of [CallersBulkWriter]: the backlog of jobs, the
    batching done by [makeBatch], one dispatch attempt ([execute]), the
    draining loop of [Flush], [Close] and the public [Create].

    Go state is threaded explicitly.  The receiver [*CallersBulkWriter] is a
    record; the two buffered channels every job carries live in two arenas
    (one per element type) addressed by the position at which [make]
    allocated them, so that copies of a job ([b[i]], [range b]) share their
    channels as they do in Go.  Every call of the transport is logged.

    The file ends with the table validator of the managed writer tests
    ([bigquery/storage/managedwriter/testutils_test.go]): its constraint
    options and the check of a result row, in [Module ManagedWriter]. *)

From Stdlib Require Import ZArith String.
From stdpp Require Import base list strings gmap pretty.

(** ** Constants (lines 13-20) *)

Definition MAX_BATCH_SIZE : Z := 20.
Definition RETRY_MAX_BATCH_SIZE : Z := 10.
Definition MAX_RETRY_ATTEMPTS : Z := 10.
Definition DEFAULT_STARTING_MAXIMUM_OPS_PER_SECOND : Z := 500.
(** [RATE_LIMITER_MULTIPLIER] is the float 1.5; like the next constant it is
    read nowhere. *)
Definition RATE_LIMITER_MULTIPLIER_MILLIS : Z := 5 * 60 * 1000.

(** Go's [int] on a 64-bit platform: results of [++] and [--] wrap. *)
Definition wrap_int (z : Z) : Z := ((z + 2 ^ 63) mod 2 ^ 64 - 2 ^ 63)%Z.

(** ** Data *)

(** [*pb.Write] and [*pb.WriteResult] are opaque to the writer: handles. *)
Definition Write := nat.
Definition WriteResult := nat.
(** A Go [error] is its message; [nil] is [None] at the use sites. *)
Definition error := string.
(** A channel is the index of its buffer in the arena of its type. *)
Definition chan := nat.

(** [*status.Status] of the rpc package; [Code] is an [int32]. *)
Record rpcStatus := { Code : Z }.

(** The generated getter is nil-safe. *)
Definition GetCode (s : option rpcStatus) : Z :=
  match s with
  | Some x => Code x
  | None => 0%Z
  end.

(** [Labels] is the empty map in every request built here and is left out. *)
Record BatchWriteRequest := {
  Database : string;
  Writes : list Write
}.

Record BatchWriteResponse := {
  WriteResults : list (option WriteResult);
  Status : list (option rpcStatus)
}.

(** What [vc.BatchWrite] hands back: the pair [(resp, err)] of Go. *)
Definition reply : Type := option BatchWriteResponse * option error.

(** The transport, as a function of the requests it has served so far and of
    the present one. *)
Definition transport : Type :=
  list BatchWriteRequest -> BatchWriteRequest -> reply.

Record bulkWriterJob := {
  err : chan;
  result : chan;
  write : Write;
  attempts : Z
}.

Record CallersBulkWriter := {
  database : string;
  reqs : Z;
  isOpen : bool;
  backlogQueue : list bulkWriterJob
}.

(** The receiver together with the heap it points into and the log of the
    requests handed to the transport (oldest first). *)
Record World := {
  bw : CallersBulkWriter;
  results : list (list (option WriteResult));
  errs : list (list (option error));
  sent : list BatchWriteRequest
}.

Definition set_bw (f : CallersBulkWriter -> CallersBulkWriter) (w : World) : World :=
  {| bw := f (bw w); results := results w; errs := errs w; sent := sent w |}.

Definition with_reqs (n : Z) (b : CallersBulkWriter) : CallersBulkWriter :=
  {| database := database b; reqs := n; isOpen := isOpen b;
     backlogQueue := backlogQueue b |}.

Definition with_isOpen (o : bool) (b : CallersBulkWriter) : CallersBulkWriter :=
  {| database := database b; reqs := reqs b; isOpen := o;
     backlogQueue := backlogQueue b |}.

Definition with_backlogQueue (q : list bulkWriterJob) (b : CallersBulkWriter)
  : CallersBulkWriter :=
  {| database := database b; reqs := reqs b; isOpen := isOpen b;
     backlogQueue := q |}.

Definition with_results (h : list (list (option WriteResult))) (w : World) : World :=
  {| bw := bw w; results := h; errs := errs w; sent := sent w |}.

Definition with_errs (h : list (list (option error))) (w : World) : World :=
  {| bw := bw w; results := results w; errs := h; sent := sent w |}.

Definition with_sent (l : list BatchWriteRequest) (w : World) : World :=
  {| bw := bw w; results := results w; errs := errs w; sent := l |}.

(** ** How a call ends *)

Inductive outcome (A : Type) : Type :=
| Returned (a : A) (w : World)   (* the call returned [a] *)
| Panicked (w : World)           (* run-time panic; [w] is the state at the crash *)
| Blocked (w : World)            (* parked for ever on a channel operation *)
| Running (w : World).           (* a loop that was still going when the fuel ran out *)

Arguments Returned {A} a w.
Arguments Panicked {A} w.
Arguments Blocked {A} w.
Arguments Running {A} w.

Definition M (A : Type) : Type := World -> outcome A.

Definition ret {A} (a : A) : M A := fun w => Returned a w.

Definition bind {A B} (m : M A) (k : A -> M B) : M B := fun w =>
  match m w with
  | Returned a w' => k a w'
  | Panicked w' => Panicked w'
  | Blocked w' => Blocked w'
  | Running w' => Running w'
  end.

Notation "'let*' x ':=' m 'in' k" := (bind m (fun x => k))
  (at level 10, x name, m at level 100, k at level 200).
Notation "m ';;;' k" := (bind m (fun _ => k))
  (at level 100, k at level 200, right associativity).

Definition get : M World := fun w => Returned w w.
Definition modify (f : World -> World) : M unit := fun w => Returned tt (f w).
Definition panic {A} : M A := fun w => Panicked w.

(** [l[i]] with Go's bounds check. *)
Definition index {A} (l : list A) (i : nat) : M A :=
  match l !! i with
  | Some x => ret x
  | None => panic
  end.

(** ** Channels of capacity one *)

(** [make(chan T, 1)]: a new, empty buffer. *)
Definition chan_make {A} (h : list (list A)) : chan * list (list A) :=
  (length h, h ++ [[]]).

(** [c <- v]: goes through while the buffer has room; [None] is a send that
    blocks (a full buffer, or no channel at that address). *)
Definition chan_send {A} (h : list (list A)) (c : chan) (v : A)
  : option (list (list A)) :=
  match h !! c with
  | Some buf => if decide (length buf < 1) then Some (<[c := buf ++ [v]]> h) else None
  | None => None
  end.

(** [<-c]: takes the oldest value; [None] is a receive that blocks. *)
Definition chan_recv {A} (h : list (list A)) (c : chan)
  : option (A * list (list A)) :=
  match h !! c with
  | Some (v :: buf) => Some (v, <[c := buf]> h)
  | _ => None
  end.

Definition make_result : M chan := fun w =>
  let (c, h) := chan_make (results w) in Returned c (with_results h w).

Definition make_err : M chan := fun w =>
  let (c, h) := chan_make (errs w) in Returned c (with_errs h w).

Definition send_result (c : chan) (v : option WriteResult) : M unit := fun w =>
  match chan_send (results w) c v with
  | Some h => Returned tt (with_results h w)
  | None => Blocked w
  end.

Definition send_err (c : chan) (v : option error) : M unit := fun w =>
  match chan_send (errs w) c v with
  | Some h => Returned tt (with_errs h w)
  | None => Blocked w
  end.

Definition recv_result (c : chan) : M (option WriteResult) := fun w =>
  match chan_recv (results w) c with
  | Some (v, h) => Returned v (with_results h w)
  | None => Blocked w
  end.

Definition recv_err (c : chan) : M (option error) := fun w =>
  match chan_recv (errs w) c with
  | Some (v, h) => Returned v (with_errs h w)
  | None => Blocked w
  end.

(** ** The writer *)

(** [NewCallersBulkWriter] once the client has been built: an open writer
    with no request in flight and nothing queued, and an empty heap. *)
Definition NewCallersBulkWriter (db : string) : World :=
  {| bw := {| database := db; reqs := 0; isOpen := true; backlogQueue := [] |};
     results := []; errs := []; sent := [] |}.

(** [makeBatch] (lines 105-123).  The slice [b] shares the array of the old
    queue, but nothing writes below the new queue's start afterwards, so [b]
    is a value. *)
Definition makeBatch : M (list bulkWriterJob) := fun w =>
  let q := backlogQueue (bw w) in
  let qs := Z.of_nat (length q) in
  if (qs <? MAX_BATCH_SIZE)%Z then
    Returned (take (Z.to_nat qs) q) (set_bw (with_backlogQueue []) w)
  else
    Returned (take (Z.to_nat MAX_BATCH_SIZE) q)
             (set_bw (with_backlogQueue (drop (Z.to_nat MAX_BATCH_SIZE) q)) w).

(** The loop of lines 134-139: the writes of the jobs that still have
    attempts left, in order. *)
Fixpoint collect (b : list bulkWriterJob) : list Write :=
  match b with
  | [] => []
  | j :: b' =>
      if (attempts j <? MAX_RETRY_ATTEMPTS)%Z then write j :: collect b'
      else collect b'
  end.

(** The loop of lines 158-161. *)
Fixpoint fail_all (b : list bulkWriterJob) (e : error) : M unit :=
  match b with
  | [] => ret tt
  | j :: b' =>
      send_result (result j) None ;;;
      send_err (err j) (Some e) ;;;
      fail_all b' e
  end.

Definition append_backlog (j : bulkWriterJob) : M unit :=
  modify (set_bw (fun b => with_backlogQueue (backlogQueue b ++ [j]) b)).

(** The loop of lines 168-180, at index [i] with [rs] the results that are
    still to be visited. *)
Fixpoint route (b : list bulkWriterJob) (resp : BatchWriteResponse)
    (i : nat) (rs : list (option WriteResult)) : M unit :=
  match rs with
  | [] => ret tt
  | res :: rs' =>
      let* s := index (Status resp) i in
      let c := GetCode s in
      if negb (c =? 0)%Z then
        let* j := index b i in
        append_backlog j ;;;
        route b resp (S i) rs'
      else
        let* j := index b i in
        send_result (result j) res ;;;
        let* j' := index b i in
        send_err (err j') None ;;;
        route b resp (S i) rs'
  end.

(** [execute] up to the transport call (lines 127-154): [None] when one of
    the two guardrails returned, else the batch and the request built. *)
Definition execute_send : M (option (list bulkWriterJob * BatchWriteRequest)) :=
  let* w := get in
  if (DEFAULT_STARTING_MAXIMUM_OPS_PER_SECOND <=? reqs (bw w))%Z then ret None
  else
    let* b := makeBatch in
    let ws := collect b in
    if (Z.of_nat (length ws) =? 0)%Z then ret None
    else
      let bwr := {| Database := database (bw w); Writes := ws |} in
      modify (set_bw (fun c => with_reqs (wrap_int (reqs c + 1)) c)) ;;;
      ret (Some (b, bwr)).

(** [execute] from the return of the transport call on (lines 155-180).
    There is no [return] after the error loop: the counter is decremented
    and [resp.WriteResults] is read whatever [err] was. *)
Definition execute_recv (b : list bulkWriterJob) (r : reply) : M unit :=
  let (resp, e) := r in
  match e with
  | Some x => fail_all b x
  | None => ret tt
  end ;;;
  modify (set_bw (fun c => with_reqs (wrap_int (reqs c - 1)) c)) ;;;
  match resp with
  | None => panic
  | Some rp => route b rp 0 (WriteResults rp)
  end.

Section Writer.

(** The client [bw.vc]. *)
Variable BatchWrite : transport.

Definition call_BatchWrite (bwr : BatchWriteRequest) : M reply := fun w =>
  Returned (BatchWrite (sent w) bwr) (with_sent (sent w ++ [bwr]) w).

(** [execute] (lines 125-181); [isFlushing] is not read by the body. *)
Definition execute (isFlushing : bool) : M unit :=
  let* x := execute_send in
  match x with
  | None => ret tt
  | Some (b, bwr) =>
      let* r := call_BatchWrite bwr in
      execute_recv b r
  end.

(** The [for] of lines 63-66; [time.Sleep] changes nothing here. *)
Fixpoint Flush_loop (fuel : nat) : M unit := fun w =>
  if (0 <? Z.of_nat (length (backlogQueue (bw w))))%Z then
    match fuel with
    | O => Running w
    | S fuel' => (execute true ;;; Flush_loop fuel') w
    end
  else Returned tt w.

(** [Flush] (lines 61-67). *)
Definition Flush (fuel : nat) : M unit :=
  execute true ;;; Flush_loop fuel.

(** [Close] (lines 54-57). *)
Definition Close (fuel : nat) : M unit :=
  modify (set_bw (with_isOpen false)) ;;; Flush fuel.

(** [n] dispatch attempts in a row, as the goroutines started by [Create]
    make them. *)
Fixpoint dispatches (n : nat) : M unit :=
  match n with
  | O => ret tt
  | S n' => execute false ;;; dispatches n'
  end.

Section Create.

(** [DocumentRef], the data of the caller and the encoder
    [newCreateWrites] are declared outside this file. *)
Context {DocumentRef Datum : Type}.
Variable newCreateWrites : DocumentRef -> Datum -> list Write * option error.
(** [fmt.Sprintf] with the verb [%v]. *)
Variable Sprint : Datum -> string.

(** [Create] up to the append of line 92: the early return, or the job
    that was queued. *)
Definition Create_enqueue (doc : option DocumentRef) (datum : Datum)
  : M ((option WriteResult * option error) + bulkWriterJob) :=
  let* w := get in
  if negb (isOpen (bw w)) then
    ret (inl (None, Some "firestore: BulkWriter has been closed"))
  else
    match doc with
    | None => ret (inl (None, Some "firestore: nil document contents"))
    | Some d =>
        let (ws, e) := newCreateWrites d datum in
        match e with
        | Some _ =>
            ret (inl (None, Some ("firestore: cannot create document with "
                                    +:+ Sprint datum)))
        | None =>
            let* r := make_result in
            let* e := make_err in
            let* w0 := index ws 0 in
            let j := {| err := e; result := r; write := w0; attempts := 0 |} in
            append_backlog j ;;;
            ret (inr j)
        end
    end.

(** [enqueue] (lines 101-103) is a stub. *)
Definition enqueue (dr : option DocumentRef) (v : Datum)
  : M (option WriteResult * option error) :=
  ret (None, Some "enqueue not implemented"%string).

(** Line 97. *)
Definition Create_await (j : bulkWriterJob)
  : M (option WriteResult * option error) :=
  let* r := recv_result (result j) in
  let* e := recv_err (err j) in
  ret (r, e).

(** [Create] (lines 69-98) when the goroutine of line 95 runs at once and
    nothing else does before the receives of line 97. *)
Definition Create (doc : option DocumentRef) (datum : Datum)
  : M (option WriteResult * option error) :=
  let* x := Create_enqueue doc datum in
  match x with
  | inl early => ret early
  | inr j => execute false ;;; Create_await j
  end.

End Create.

End Writer.

(** ** Fixtures: three transports and an encoder *)

(** Every write is applied: code 0 and a result for each. *)
Definition accepting : transport := fun _ req =>
  (Some {| WriteResults := map (fun x => Some (100 + x)) (Writes req);
           Status := map (fun _ => Some {| Code := 0 |}) (Writes req) |},
   None).

(** The call succeeds and every write comes back with code 14. *)
Definition rejecting : transport := fun _ req =>
  (Some {| WriteResults := map (fun _ => Some 0) (Writes req);
           Status := map (fun _ => Some {| Code := 14 |}) (Writes req) |},
   None).

(** The call itself fails: no response, an error. *)
Definition failing : transport := fun _ _ =>
  (None, Some "rpc error: code = Unavailable"%string).

(** An encoder that turns document [d] into the single write [d]. *)
Definition one_write (d : nat) (_ : unit) : list Write * option error :=
  ([d], None).

Definition show_unit (_ : unit) : string := "{}"%string.

Definition fresh_writer : World :=
  NewCallersBulkWriter "projects/p/databases/d".

(** The world in which an outcome ends. *)
Definition final {A} (o : outcome A) : World :=
  match o with
  | Returned _ w => w
  | Panicked w => w
  | Blocked w => w
  | Running w => w
  end.

(** A projection of the world that a computation never changes, however
    it ends. *)
Definition stable {A X} (f : World -> X) (m : M A) : Prop :=
  forall w, f (final (m w)) = f w.

(** The database of the fixtures and a request for it. *)
Definition request (ws : list Write) : BatchWriteRequest :=
  {| Database := "projects/p/databases/d"; Writes := ws |}.

(** The job that [Create] queues first on a fresh writer, for document 7. *)
Definition job7 : bulkWriterJob :=
  {| err := 0; result := 0; write := 7; attempts := 0 |}.

(** A fresh writer on which [Create] has queued [job7] and no dispatch has
    run yet. *)
Definition one_queued : World :=
  final (Create_enqueue one_write show_unit (Some 7) tt fresh_writer).

(** The same, seen by another goroutine once the dispatch of [job7] has
    popped its batch and counted its request (line 154), the transport
    call being under way. *)
Definition in_flight : World := final (execute_send one_queued).

(** The enqueuing part of [Create] for each of [docs] in turn, no dispatch
    running in between. *)
Fixpoint queue_docs (docs : list nat) : M unit :=
  match docs with
  | [] => ret tt
  | d :: docs' =>
      Create_enqueue one_write show_unit (Some d) tt ;;; queue_docs docs'
  end.

(** Two writes queued on a fresh writer. *)
Definition two_queued : World := final (queue_docs [7; 8] fresh_writer).

(** Twenty-five writes queued on a fresh writer. *)
Definition twenty_five_queued : World := final (queue_docs (seq 0 25) fresh_writer).

(** The least number of batches of at most [d] that hold [n] writes. *)
Definition ceil_div (n d : nat) : nat := (n + d - 1) / d.

(** ** What the callers see *)

(** Nothing has been sent to the caller of [j] yet: both channels exist and
    are empty. *)
Definition pending (w : World) (j : bulkWriterJob) : Prop :=
  results w !! result j = Some [] /\ errs w !! err j = Some [].

(** The caller of [j] has been sent exactly the pair [(r, e)]. *)
Definition resolved (w : World) (j : bulkWriterJob)
    (r : option WriteResult) (e : option error) : Prop :=
  results w !! result j = Some [r] /\ errs w !! err j = Some [e].

(** No two jobs of [b] share a channel, as is the case of jobs made by
    [Create]. *)
Definition separate (b : list bulkWriterJob) : Prop :=
  NoDup (result <$> b) /\ NoDup (err <$> b).

(** Between [w] and [w'] only channels of the jobs [b] were touched. *)
Definition only_touched (b : list bulkWriterJob) (w w' : World) : Prop :=
  (forall c, c ∉ result <$> b -> results w' !! c = results w !! c) /\
  (forall c, c ∉ err <$> b -> errs w' !! c = errs w !! c).

(** A transport that applies every write it is sent: the call succeeds, with
    one result and one status of code 0 per write. *)
Definition applies_all (tr : transport) : Prop :=
  forall hist req, exists resp,
    tr hist req = (Some resp, None) /\
    length (WriteResults resp) = length (Writes req) /\
    length (Status resp) = length (Writes req) /\
    Forall (fun s => GetCode s = 0%Z) (Status resp) /\
    Forall is_Some (WriteResults resp).

(** The jobs [q] that were queued in [w] have been drained by [w']: the
    requests [batches] went out for them, in the least number of batches of
    at most twenty, all full but the last one, in queue order; the queue is
    empty, the counter is where it was, and every caller has a result and a
    nil error. *)
Definition drained_into (q : list bulkWriterJob) (w w' : World)
    (batches : list BatchWriteRequest) : Prop :=
  sent w' = sent w ++ batches /\
  length batches = ceil_div (length q) 20 /\
  Forall (fun r => length (Writes r) <= 20) batches /\
  (forall i r, batches !! i = Some r -> S i < length batches ->
               length (Writes r) = 20) /\
  concat (Writes <$> batches) = write <$> q /\
  backlogQueue (bw w') = [] /\
  reqs (bw w') = reqs (bw w) /\
  Forall (fun j => exists r, resolved w' j (Some r) None) q.

(** The queue is in order: its jobs are unanswered and no two of them share
    a channel. *)
Definition queue_ok (w : World) : Prop :=
  separate (backlogQueue (bw w)) /\ Forall (pending w) (backlogQueue (bw w)).

(** The same during the response loop, counting in the jobs of the batch
    [b] that the loop has not reached yet. *)
Definition queue_ok_from (b : list bulkWriterJob) (i : nat) (w : World) : Prop :=
  separate (backlogQueue (bw w) ++ drop i b) /\
  Forall (pending w) (backlogQueue (bw w) ++ drop i b).

(** A transport whose replies never hold both a response and an error. *)
Definition one_sided (tr : transport) : Prop :=
  forall hist req resp e, tr hist req <> (Some resp, Some e).

(** What is asked of an outcome of a dispatch: it is not a send that
    blocks, and if the call returns the queue is in order. *)
Definition keeps_queue {A} (o : outcome A) : Prop :=
  match o with
  | Returned _ w => queue_ok w
  | Panicked _ => True
  | Blocked _ => False
  | Running _ => False
  end.

(** The worlds of the runs of a writer made by [NewCallersBulkWriter] in
    which no two goroutines overlap: each step below runs to its end before
    the next one starts.  The steps are the enqueuing part of a [Create], a
    whole dispatch, the receives that end a [Create], and the write to
    [isOpen] that starts a [Close]; [Flush], [Close] and [Create] are made
    of these.  The source takes no lock: a run in which a dispatch overlaps
    another step goes through worlds that are not here (a batch in flight,
    as [in_flight]; a batch read by two dispatches). *)
Inductive reachable (tr : transport) : World -> Prop :=
| reach_new db :
    reachable tr (NewCallersBulkWriter db)
| reach_enqueue {DocumentRef Datum : Type}
    (enc : DocumentRef -> Datum -> list Write * option error)
    (spr : Datum -> string) doc datum w x w' :
    reachable tr w ->
    Create_enqueue enc spr doc datum w = Returned x w' ->
    reachable tr w'
| reach_execute fl w w' :
    reachable tr w ->
    execute tr fl w = Returned tt w' ->
    reachable tr w'
| reach_await j w x w' :
    reachable tr w ->
    Create_await j w = Returned x w' ->
    reachable tr w'
| reach_close w :
    reachable tr w ->
    reachable tr (set_bw (with_isOpen false) w).

(** ** More fixtures *)

(** The jobs of [js] that the response loop puts back on the queue when it
    visits them against the statuses [ss], one per result of [rs]: those
    whose code is not 0, in order. *)
Fixpoint requeued (js : list bulkWriterJob) (ss : list (option rpcStatus))
    (rs : list (option WriteResult)) : list bulkWriterJob :=
  match rs, js, ss with
  | _ :: rs', j :: js', s :: ss' =>
      if negb (GetCode s =? 0)%Z then j :: requeued js' ss' rs'
      else requeued js' ss' rs'
  | _, _, _ => []
  end.

(** A transport that applies the writes of even number and answers code 14
    for the others. *)
Definition even_only : transport := fun _ req =>
  (Some {| WriteResults := map (fun x => Some (100 + x)) (Writes req);
           Status := map (fun x => Some {| Code := if Nat.even x then 0 else 14 |})
                         (Writes req) |},
   None).

(** A transport whose response holds no result at all. *)
Definition mute : transport := fun _ _ =>
  (Some {| WriteResults := []; Status := [] |}, None).

(** A transport whose response holds one result and status too many. *)
Definition verbose : transport := fun _ req =>
  (Some {| WriteResults := map (fun x => Some (100 + x)) (0 :: Writes req);
           Status := map (fun _ => Some {| Code := 0 |}) (0 :: Writes req) |},
   None).

(** An encoder that fails on every document. *)
Definition no_write (d : nat) (_ : unit) : list Write * option error :=
  ([], Some "firestore: bad data"%string).

(** [one_queued] with as many requests in flight as the guardrail lets
    through. *)
Definition saturated : World :=
  set_bw (with_reqs DEFAULT_STARTING_MAXIMUM_OPS_PER_SECOND) one_queued.

(** * The table validator of the managed writer tests
    ([bigquery/storage/managedwriter/testutils_test.go]) *)

Module ManagedWriter.

(** [constraint] (lines 98-108); the two counts are [int64]. *)
Record constraint := {
  projection : string;
  expectedValue : Z;
  allowedError : Z
}.

(** [validationInfo] (lines 110-113).  The map holds pointers to structs
    that nothing writes after they are made: values. *)
Record validationInfo := { constraints : gmap string constraint }.

(** [constraintOption] (line 116): a function that updates the map of the
    [*validationInfo] it is given. *)
Definition constraintOption : Type := validationInfo -> validationInfo.

(** [vi.constraints[resultCol] = &constraint{...}]. *)
Definition put (resultCol : string) (c : constraint) : constraintOption :=
  fun vi => {| constraints := <[resultCol := c]> (constraints vi) |}.

(** The double quote and the line feed of the format strings. *)
Definition dquote : string := String (Ascii.ascii_of_nat 34) EmptyString.
Definition newline : string := String (Ascii.ascii_of_nat 10) EmptyString.

(** The verb [%t]. *)
Definition show_bool (b : bool) : string := if b then "true" else "false".

(** Lines 119-127. *)
Definition withExactRowCount (totalRows : Z) : constraintOption :=
  let resultCol := "total_rows" in
  put resultCol
    {| projection := "COUNT(1) AS " +:+ resultCol;
       expectedValue := totalRows; allowedError := 0 |}.

(** Lines 130-138. *)
Definition withNullCount (colname : string) (nullCount : Z) : constraintOption :=
  let resultCol := "nullcol_count_" +:+ colname in
  put resultCol
    {| projection := "SUM(IF(" +:+ colname +:+ " IS NULL,1,0)) AS " +:+ resultCol;
       expectedValue := nullCount; allowedError := 0 |}.

(** Lines 141-149. *)
Definition withNonNullCount (colname : string) (nonNullCount : Z)
  : constraintOption :=
  let resultCol := "nonnullcol_count_" +:+ colname in
  put resultCol
    {| projection := "SUM(IF(" +:+ colname +:+ " IS NOT NULL,1,0)) AS " +:+ resultCol;
       expectedValue := nonNullCount; allowedError := 0 |}.

(** Lines 152-160. *)
Definition withDistinctValues (colname : string) (distinctVals : Z)
  : constraintOption :=
  let resultCol := "distinct_count_" +:+ colname in
  put resultCol
    {| projection := "COUNT(DISTINCT " +:+ colname +:+ ") AS " +:+ resultCol;
       expectedValue := distinctVals; allowedError := 0 |}.

(** Lines 163-172. *)
Definition withApproxDistinctValues (colname : string)
    (approxValues errorBound : Z) : constraintOption :=
  let resultCol := "distinct_count_" +:+ colname in
  put resultCol
    {| projection := "APPROX_COUNT_DISTINCT(" +:+ colname +:+ ") AS " +:+ resultCol;
       expectedValue := approxValues; allowedError := errorBound |}.

(** Lines 175-183; [%d] prints the integer in decimal. *)
Definition withIntegerValueCount (colname : string) (wantValue valueCount : Z)
  : constraintOption :=
  let resultCol := "integer_value_count_" +:+ colname in
  put resultCol
    {| projection := "COUNTIF(" +:+ colname +:+ " = " +:+ pretty wantValue
                     +:+ ") AS " +:+ resultCol;
       expectedValue := valueCount; allowedError := 0 |}.

(** Lines 186-194. *)
Definition withStringValueCount (colname wantValue : string) (valueCount : Z)
  : constraintOption :=
  let resultCol := "string_value_count_" +:+ colname in
  put resultCol
    {| projection := "COUNTIF(" +:+ colname +:+ " = " +:+ dquote +:+ wantValue
                     +:+ dquote +:+ ") AS " +:+ resultCol;
       expectedValue := valueCount; allowedError := 0 |}.

(** Lines 197-205. *)
Definition withBoolValueCount (colname : string) (wantValue : bool)
    (valueCount : Z) : constraintOption :=
  let resultCol := "bool_value_count_" +:+ colname in
  put resultCol
    {| projection := "COUNTIF(" +:+ colname +:+ " = " +:+ show_bool wantValue
                     +:+ ") AS " +:+ resultCol;
       expectedValue := valueCount; allowedError := 0 |}.

(** Lines 208-216; [%s] prints the bytes as they are. *)
Definition withBytesValueCount (colname wantValue : string) (valueCount : Z)
  : constraintOption :=
  let resultCol := "bytes_value_count_" +:+ colname in
  put resultCol
    {| projection := "COUNTIF(" +:+ colname +:+ " = B" +:+ dquote +:+ wantValue
                     +:+ dquote +:+ ") AS " +:+ resultCol;
       expectedValue := valueCount; allowedError := 0 |}.

(** A [bigquery.Value] as the validator looks at it: an [int64] or not. *)
Inductive Value :=
| VInt64 (z : Z)
| VOther.

(** The calls of [t.Errorf], each with the values it prints (the
    description of the test and the id of the query job apart). *)
Inductive failure :=
| NoConstraints
| QueryFailed
| RowFailed
| Missing (colname : string)
| TypeMismatch (colname : string)
| Mismatch (colname : string) (got want : Z)
| OutsideBound (colname : string) (bound got want : Z).

(** The search of lines 67-73: the first offset, from [k] on, of a schema
    field named [colname]; [None] is [off == -1]. *)
Fixpoint column_offset (schema : list string) (colname : string) (k : nat)
  : option nat :=
  match schema with
  | [] => None
  | v :: schema' =>
      if decide (v = colname) then Some k
      else column_offset schema' colname (S k)
  end.

(** The type assertion of line 78: the value and [ok]. *)
Definition as_int64 (v : Value) : Z * bool :=
  match v with
  | VInt64 z => (z, true)
  | VOther => (0%Z, false)
  end.

(** The body of the loop of lines 66-95 for one constraint: the failures
    it reports; [None] is the panic of [resultrow[off]] out of range. *)
Definition check (schema : list string) (resultrow : list Value)
    (colname : string) (con : constraint) : option (list failure) :=
  match column_offset schema colname 0 with
  | None => Some [Missing colname]
  | Some off =>
      match resultrow !! off with
      | None => None
      | Some v =>
          let (val, ok) := as_int64 v in
          let mism := if ok then [] else [TypeMismatch colname] in
          if (allowedError con =? 0)%Z then
            Some (mism ++
                  if negb (val =? expectedValue con)%Z
                  then [Mismatch colname val (expectedValue con)] else [])
          else
            let res := wrap_int (val - expectedValue con) in
            let res := if (res <? 0)%Z then wrap_int (- res) else res in
            Some (mism ++
                  if (allowedError con <? res)%Z
                  then [OutsideBound colname (allowedError con) val
                                     (expectedValue con)]
                  else [])
      end
  end.

(** The loop of lines 66-95 over the constraints in the order [cs]. *)
Fixpoint check_all (schema : list string) (resultrow : list Value)
    (cs : list (string * constraint)) : option (list failure) :=
  match cs with
  | [] => Some []
  | (colname, con) :: cs' =>
      match check schema resultrow colname con with
      | None => None
      | Some fs =>
          match check_all schema resultrow cs' with
          | None => None
          | Some fs' => Some (fs ++ fs')
          end
      end
  end.

(** The pieces of a [*bigquery.Table] that the query names. *)
Record Table := { ProjectID : string; DatasetID : string; TableID : string }.

(** What [q.Read] and [it.Next] give: an error of either, or the schema
    (the names of its fields) and the first row. *)
Inductive query_outcome :=
| ReadError
| NextError
| Row (schema : list string) (resultrow : list Value).

(** The text built by lines 42-52 from the constraints in the order
    [cs]. *)
Fixpoint projections (cs : list (string * constraint)) (i : nat) : string :=
  match cs with
  | [] => ""
  | (_, c) :: cs' =>
      (if decide (0 < i) then "," else "") +:+ projection c
      +:+ projections cs' (S i)
  end.

Definition sql_text (cs : list (string * constraint)) (table : Table) : string :=
  "SELECT" +:+ newline +:+ projections cs 0 +:+ newline +:+ "FROM `"
  +:+ ProjectID table +:+ "`." +:+ DatasetID table +:+ "." +:+ TableID table.

Section Validate.

(** The query engine, and the orders in which the two [range] loops over
    the map visit it (Go leaves them open). *)
Variable query : string -> query_outcome.
Variable range_sql range_check : gmap string constraint -> list (string * constraint).

(** [validateTableConstraints] (lines 28-96): the failures reported. *)
Definition validateTableConstraints (table : Table)
    (opts : list constraintOption) : option (list failure) :=
  let vi := foldl (fun vi o => o vi) {| constraints := ∅ |} opts in
  if decide (size (constraints vi) = 0) then Some [NoConstraints]
  else
    match query (sql_text (range_sql (constraints vi)) table) with
    | ReadError => Some [QueryFailed]
    | NextError => Some [RowFailed]
    | Row schema resultrow =>
        check_all schema resultrow (range_check (constraints vi))
    end.

End Validate.

End ManagedWriter.

(** * Facts about the bulk writer *)

(** ** Frame lemmas *)

Lemma stable_ret {A X} (f : World -> X) (a : A) : stable f (ret a).
Proof. intros w; reflexivity. Qed.

Lemma stable_panic {A X} (f : World -> X) : stable f (@panic A).
Proof. intros w; reflexivity. Qed.

Lemma stable_get {X} (f : World -> X) : stable f get.
Proof. intros w; reflexivity. Qed.

Lemma stable_bind {A B X} (f : World -> X) (m : M A) (k : A -> M B) :
  stable f m -> (forall a, stable f (k a)) -> stable f (bind m k).
Proof.
  intros Hm Hk w. unfold bind. specialize (Hm w).
  destruct (m w) as [a w'| w' | w' | w']; simpl in *; try exact Hm.
  rewrite Hk. exact Hm.
Qed.

Lemma stable_index {A X} (f : World -> X) (l : list A) (i : nat) :
  stable f (index l i).
Proof. unfold index. destruct (l !! i); [apply stable_ret | apply stable_panic]. Qed.

Lemma stable_send_result {X} (f : World -> X) c v :
  (forall h w, f (with_results h w) = f w) -> stable f (send_result c v).
Proof.
  intros Hf w. unfold send_result.
  destruct (chan_send (results w) c v); simpl; [apply Hf | reflexivity].
Qed.

Lemma stable_send_err {X} (f : World -> X) c v :
  (forall h w, f (with_errs h w) = f w) -> stable f (send_err c v).
Proof.
  intros Hf w. unfold send_err.
  destruct (chan_send (errs w) c v); simpl; [apply Hf | reflexivity].
Qed.

Lemma stable_fail_all {X} (f : World -> X) b e :
  (forall h w, f (with_results h w) = f w) ->
  (forall h w, f (with_errs h w) = f w) ->
  stable f (fail_all b e).
Proof.
  intros Hr He. induction b as [|j b IH]; simpl.
  - apply stable_ret.
  - apply stable_bind; [now apply stable_send_result|intros _].
    apply stable_bind; [now apply stable_send_err|intros _]. exact IH.
Qed.

(** The response loop writes the queue and nothing else of the receiver. *)
Lemma stable_route {X} (f : CallersBulkWriter -> X) b resp i rs :
  (forall q c, f (with_backlogQueue q c) = f c) ->
  stable (fun w => f (bw w)) (route b resp i rs).
Proof.
  intros Hf. revert i. induction rs as [|res rs IH]; intros i; simpl.
  - apply stable_ret.
  - apply stable_bind; [apply stable_index|intros s].
    destruct (negb _).
    + apply stable_bind; [apply stable_index|intros j].
      apply stable_bind; [intros w; apply Hf|intros _]. apply IH.
    + apply stable_bind; [apply stable_index|intros j].
      apply stable_bind; [now apply stable_send_result|intros _].
      apply stable_bind; [apply stable_index|intros j'].
      apply stable_bind; [now apply stable_send_err|intros _]. apply IH.
Qed.

(** [isOpen] is written by [Close] alone. *)
Lemma isOpen_route b resp i rs :
  stable (fun w => isOpen (bw w)) (route b resp i rs).
Proof. now apply (stable_route isOpen). Qed.

Lemma isOpen_execute_send : stable (fun w => isOpen (bw w)) execute_send.
Proof.
  unfold execute_send. apply stable_bind; [apply stable_get|intros w0].
  destruct (_ <=? _)%Z; [apply stable_ret|].
  apply stable_bind.
  - intros w. unfold makeBatch. destruct (_ <? _)%Z; reflexivity.
  - intros b. destruct (_ =? _)%Z; [apply stable_ret|].
    apply stable_bind; [intros w; reflexivity|intros _; apply stable_ret].
Qed.

Lemma isOpen_execute_recv b r : stable (fun w => isOpen (bw w)) (execute_recv b r).
Proof.
  destruct r as [resp e]. unfold execute_recv.
  apply stable_bind.
  - destruct e; [now apply stable_fail_all | apply stable_ret].
  - intros _. apply stable_bind; [intros w; reflexivity|intros _].
    destruct resp; [apply isOpen_route | apply stable_panic].
Qed.

Lemma isOpen_execute tr fl : stable (fun w => isOpen (bw w)) (execute tr fl).
Proof.
  unfold execute. apply stable_bind; [apply isOpen_execute_send|].
  intros [[b bwr]|]; [|apply stable_ret].
  apply stable_bind; [intros w; reflexivity|intros r].
  apply isOpen_execute_recv.
Qed.

Lemma isOpen_Flush_loop tr fuel : stable (fun w => isOpen (bw w)) (Flush_loop tr fuel).
Proof.
  induction fuel as [|fuel IH]; intros w; simpl.
  - destruct (_ <? _)%Z; reflexivity.
  - destruct (_ <? _)%Z; [|reflexivity].
    apply (stable_bind (fun w => isOpen (bw w))); [apply isOpen_execute|intros _; exact IH].
Qed.

Lemma isOpen_Flush tr fuel : stable (fun w => isOpen (bw w)) (Flush tr fuel).
Proof.
  unfold Flush. apply stable_bind; [apply isOpen_execute|intros _].
  apply isOpen_Flush_loop.
Qed.

(** However [Close] ends, it leaves the writer closed. *)
Lemma Close_closes tr fuel w : isOpen (bw (final (Close tr fuel w))) = false.
Proof.
  unfold Close, bind, modify.
  apply (isOpen_Flush tr fuel (set_bw (with_isOpen false) w)).
Qed.

(** ** [Create] on a closed writer, and with a nil document *)

(** C9. Once [isOpen] is false, as [Close] leaves it, every [Create]
    returns at once a nil result and the error saying the writer has been
    closed; the world it returns in is the one it was called in: nothing is
    queued and the transport is not called. *)
Theorem Create_closed (tr : transport) {DocumentRef Datum : Type}
    (enc : DocumentRef -> Datum -> list Write * option error)
    (spr : Datum -> string) (doc : option DocumentRef) (datum : Datum)
    (w : World) :
  isOpen (bw w) = false ->
  Create tr enc spr doc datum w
  = Returned (None, Some "firestore: BulkWriter has been closed"%string) w.
Proof.
  intros Hc. unfold Create, Create_enqueue, bind, get, ret. now rewrite Hc.
Qed.

Lemma Create_closed_witness :
  let w := final (Close accepting 3
                    (final (Create_enqueue one_write show_unit (Some 7) tt fresh_writer))) in
  isOpen (bw w) = false /\
  backlogQueue (bw w) = [] /\
  Create accepting one_write show_unit (Some 8) tt w
  = Returned (None, Some "firestore: BulkWriter has been closed"%string) w.
Proof.
  split; [reflexivity|]. split; [reflexivity|].
  apply (Create_closed accepting one_write show_unit (Some 8) tt). reflexivity.
Defined.

(** C10. On an open writer, [Create] with a nil document returns at once a
    nil result and a non-nil error, in an unchanged world: no job is queued,
    no channel is made and no dispatch is started. *)
Theorem Create_nil_doc (tr : transport) {DocumentRef Datum : Type}
    (enc : DocumentRef -> Datum -> list Write * option error)
    (spr : Datum -> string) (datum : Datum) (w : World) :
  isOpen (bw w) = true ->
  exists e : error,
    Create tr enc spr None datum w = Returned (None, Some e) w.
Proof.
  intros Ho. exists "firestore: nil document contents"%string.
  unfold Create, Create_enqueue, bind, get, ret. now rewrite Ho.
Qed.

Lemma Create_nil_doc_witness :
  isOpen (bw fresh_writer) = true /\
  exists e : error,
    Create accepting one_write show_unit None tt fresh_writer
    = Returned (None, Some e) fresh_writer.
Proof.
  split; [reflexivity|].
  apply (Create_nil_doc accepting one_write show_unit tt fresh_writer). reflexivity.
Defined.

(** ** One dispatch, step by step *)

(** Both branches of [makeBatch] pop the first [MAX_BATCH_SIZE] jobs. *)
Lemma makeBatch_eq w :
  makeBatch w
  = Returned (take 20 (backlogQueue (bw w)))
             (set_bw (with_backlogQueue (drop 20 (backlogQueue (bw w)))) w).
Proof.
  unfold makeBatch. destruct (Z.ltb_spec (Z.of_nat (length (backlogQueue (bw w))))
                                MAX_BATCH_SIZE) as [Hlt|Hge].
  - unfold MAX_BATCH_SIZE in Hlt.
    rewrite Nat2Z.id, firstn_all, take_ge, drop_ge by lia. reflexivity.
  - reflexivity.
Qed.

Lemma execute_send_eq w :
  (reqs (bw w) < DEFAULT_STARTING_MAXIMUM_OPS_PER_SECOND)%Z ->
  execute_send w
  = let b := take 20 (backlogQueue (bw w)) in
    let w1 := set_bw (with_backlogQueue (drop 20 (backlogQueue (bw w)))) w in
    if decide (collect b = []) then Returned None w1
    else
      Returned (Some (b, {| Database := database (bw w); Writes := collect b |}))
               (set_bw (fun c => with_reqs (wrap_int (reqs c + 1)) c) w1).
Proof.
  intros Hlt. unfold execute_send, bind, get.
  apply Z.leb_gt in Hlt. rewrite Hlt, makeBatch_eq.
  destruct (collect (take 20 (backlogQueue (bw w)))); reflexivity.
Qed.

Lemma execute_send_guard w :
  (DEFAULT_STARTING_MAXIMUM_OPS_PER_SECOND <= reqs (bw w))%Z ->
  execute_send w = Returned None w.
Proof.
  intros Hge. unfold execute_send, bind, get.
  apply Z.leb_le in Hge. now rewrite Hge.
Qed.

(** When every job has attempts left, the request is the batch. *)
Lemma collect_all b :
  Forall (fun j => (attempts j < MAX_RETRY_ATTEMPTS)%Z) b -> collect b = write <$> b.
Proof.
  induction 1 as [|j b Hj _ IH]; simpl; [reflexivity|].
  apply Z.ltb_lt in Hj. now rewrite Hj, IH.
Qed.

(** ** Writes that the server rejects *)

Lemma execute_rejecting_one_queued fl l :
  execute rejecting fl (with_sent l one_queued)
  = Returned tt (with_sent (l ++ [request [7]]) one_queued).
Proof. reflexivity. Qed.

Lemma dispatches_rejecting_one_queued n l :
  dispatches rejecting n (with_sent l one_queued)
  = Returned tt (with_sent (l ++ replicate n (request [7])) one_queued).
Proof.
  revert l. induction n as [|n IH]; intros l; simpl.
  - now rewrite app_nil_r.
  - unfold bind. rewrite execute_rejecting_one_queued, IH.
    now rewrite <- app_assoc.
Qed.

Lemma Flush_loop_rejecting_one_queued fuel l :
  Flush_loop rejecting fuel (with_sent l one_queued)
  = Running (with_sent (l ++ replicate fuel (request [7])) one_queued).
Proof.
  revert l. induction fuel as [|fuel IH]; intros l.
  - simpl. now rewrite app_nil_r.
  - change (Flush_loop rejecting (S fuel) (with_sent l one_queued))
      with (bind (execute rejecting true) (fun _ => Flush_loop rejecting fuel)
              (with_sent l one_queued)).
    unfold bind. rewrite execute_rejecting_one_queued, IH.
    now rewrite <- app_assoc.
Qed.

(** C2. A write that the server keeps rejecting: after any number [n] of
    dispatches, each answered with a non-zero code, the job is back at the
    tail of the queue with its attempt count still 0, neither of its
    channels has received anything, and the write has gone out [n] times
    ([n] may exceed [MAX_RETRY_ATTEMPTS]). *)
Theorem rejected_job_requeued_without_count (n : nat) :
  backlogQueue (bw one_queued) = [job7] /\
  exists w',
    dispatches rejecting n one_queued = Returned tt w' /\
    backlogQueue (bw w') = [job7] /\ attempts job7 = 0%Z /\
    results w' !! result job7 = Some [] /\
    errs w' !! err job7 = Some [] /\
    sent w' = replicate n (request [7]).
Proof.
  split; [reflexivity|].
  exists (with_sent (replicate n (request [7])) one_queued).
  split; [|repeat split; reflexivity].
  exact (dispatches_rejecting_one_queued n []).
Qed.

(** C1. One [Create] whose batch is answered with a non-zero code: the job
    goes back to the queue, the caller is parked on its result channel, and
    a [Flush] started afterwards is still looping after any number of
    rounds with both channels of the job empty. *)
Theorem rejected_job_never_resolved (fuel : nat) :
  exists w1 w2,
    Create rejecting one_write show_unit (Some 7) tt fresh_writer = Blocked w1 /\
    Flush rejecting fuel w1 = Running w2 /\
    backlogQueue (bw w2) = [job7] /\
    results w2 !! result job7 = Some [] /\
    errs w2 !! err job7 = Some [].
Proof.
  exists (with_sent [request [7]] one_queued).
  exists (with_sent ([request [7]; request [7]] ++ replicate fuel (request [7])) one_queued).
  split; [reflexivity|]. split; [|repeat split; reflexivity].
  unfold Flush, bind.
  rewrite (execute_rejecting_one_queued true [request [7]]).
  exact (Flush_loop_rejecting_one_queued fuel [request [7]; request [7]]).
Qed.

(** ** A job that has had all its attempts *)


(** ** A transport call that fails *)

(** C6. When the call returns an error and no response, [execute] sends on
    the channels of the batch, decrements the counter and then reads
    [resp.WriteResults] through the nil response: it panics. *)
Theorem execute_panics_on_transport_error :
  exists w',
    execute failing false one_queued = Panicked w' /\
    results w' = [[None]] /\
    errs w' = [[Some "rpc error: code = Unavailable"%string]] /\
    reqs (bw w') = 0%Z.
Proof. eexists. split; [lazy; reflexivity|]. repeat split; reflexivity. Qed.

(** ** [Flush] and batches in flight *)

(** C7. While the dispatch of [job7] is between its increment of [reqs]
    and the answer of the transport, the queue is empty and [reqs] is 1; a
    [Flush] called then returns at once, with [reqs] still 1, and the rest
    of the dispatch, answered with a non-zero code, puts the job back on
    the queue afterwards. *)
Theorem Flush_returns_with_batch_in_flight (tr : transport) (fuel : nat) :
  Flush tr fuel in_flight = Returned tt in_flight /\
  backlogQueue (bw in_flight) = [] /\
  reqs (bw in_flight) = 1%Z /\
  (let* r := call_BatchWrite rejecting (request [7]) in execute_recv [job7] r)
    in_flight
  = Returned tt (with_sent [request [7]] one_queued).
Proof. repeat split; try reflexivity. destruct fuel; reflexivity. Qed.

(** ** How many batches *)

(** C8, as stated, fails: two writes created one after the other, each
    dispatched by its own [Create], are both applied and resolved with
    their results, the queue is drained, and the transport has been called
    twice, not [ceil_div 2 20 = 1] times. *)
Lemma two_creates_two_batches :
  let run :=
    let* r1 := Create accepting one_write show_unit (Some 7) tt in
    let* r2 := Create accepting one_write show_unit (Some 8) tt in
    Flush accepting 0 ;;; ret (r1, r2) in
  exists w',
    run fresh_writer = Returned ((Some 107, None), (Some 108, None)) w' /\
    backlogQueue (bw w') = [] /\
    sent w' = [request [7]; request [8]] /\
    length (sent w') <> ceil_div 2 (Z.to_nat MAX_BATCH_SIZE).
Proof.
  eexists. split; [lazy; reflexivity|]. repeat split; try reflexivity.
  vm_compute. discriminate.
Qed.

(** ** Sends on empty channels *)

Lemma wrap_int_small z :
  (- 2 ^ 63 <= z < 2 ^ 63)%Z -> wrap_int z = z.
Proof. intros H. unfold wrap_int. rewrite Z.mod_small; lia. Qed.

Lemma chan_send_empty {A} (h : list (list A)) c v :
  h !! c = Some [] -> chan_send h c v = Some (<[c := [v]]> h).
Proof. intros H. unfold chan_send. now rewrite H. Qed.

Lemma send_result_empty w c v :
  results w !! c = Some [] ->
  send_result c v w = Returned tt (with_results (<[c := [v]]> (results w)) w).
Proof.
  intros Hr. unfold send_result. now rewrite (chan_send_empty _ _ _ Hr).
Qed.

Lemma send_err_empty w c v :
  errs w !! c = Some [] ->
  send_err c v w = Returned tt (with_errs (<[c := [v]]> (errs w)) w).
Proof.
  intros He. unfold send_err. now rewrite (chan_send_empty _ _ _ He).
Qed.

(** The world after both sends to the caller of [j]. *)
Lemma resolve_job w j r e :
  pending w j ->
  let w' := with_errs (<[err j := [e]]> (errs w))
              (with_results (<[result j := [r]]> (results w)) w) in
  resolved w' j r e /\ only_touched [j] w w' /\
  bw w' = bw w /\ sent w' = sent w.
Proof.
  intros [Hr He]. simpl. repeat split; simpl.
  - apply list_lookup_insert_eq. now apply lookup_lt_Some in Hr.
  - apply list_lookup_insert_eq. now apply lookup_lt_Some in He.
  - intros c Hc. apply list_lookup_insert_ne.
    intros <-. apply Hc. apply list_elem_of_singleton. reflexivity.
  - intros c Hc. apply list_lookup_insert_ne.
    intros <-. apply Hc. apply list_elem_of_singleton. reflexivity.
Qed.

Lemma pending_only_touched b w w' j :
  only_touched b w w' -> result j ∉ result <$> b -> err j ∉ err <$> b ->
  pending w j -> pending w' j.
Proof.
  intros [Hr He] Hjr Hje [Pr Pe]. split.
  - now rewrite Hr.
  - now rewrite He.
Qed.

Lemma resolved_only_touched b w w' j r e :
  only_touched b w w' -> result j ∉ result <$> b -> err j ∉ err <$> b ->
  resolved w j r e -> resolved w' j r e.
Proof.
  intros [Hr He] Hjr Hje [Pr Pe]. split.
  - now rewrite Hr.
  - now rewrite He.
Qed.

Lemma only_touched_trans b1 b2 w1 w2 w3 :
  only_touched b1 w1 w2 -> only_touched b2 w2 w3 ->
  only_touched (b1 ++ b2) w1 w3.
Proof.
  intros [Hr1 He1] [Hr2 He2].
  split; intros c Hc; rewrite fmap_app in Hc;
    apply not_elem_of_app in Hc as [H1 H2].
  - now rewrite Hr2, Hr1.
  - now rewrite He2, He1.
Qed.

Lemma separate_cons j b :
  separate (j :: b) ->
  (result j ∉ result <$> b) /\ (err j ∉ err <$> b) /\ separate b.
Proof.
  intros [Hr He]. simpl in *. apply NoDup_cons in Hr, He.
  destruct Hr, He. repeat split; assumption.
Qed.

(** The error loop on a batch of pending, separate jobs: every caller is
    sent [(nil, e)], and nothing else changes. *)
Lemma fail_all_pending e b : forall w,
  separate b -> Forall (pending w) b ->
  exists w',
    fail_all b e w = Returned tt w' /\
    Forall (fun j => resolved w' j None (Some e)) b /\
    only_touched b w w' /\ bw w' = bw w /\ sent w' = sent w.
Proof.
  induction b as [|j b IH]; intros w Hsep Hpend.
  - exists w. repeat split; auto.
  - apply separate_cons in Hsep as (Hjr & Hje & Hsep).
    apply Forall_cons in Hpend as [Hj Hb].
    destruct (resolve_job w j None (Some e) Hj) as (Hres & Htouch & Hbw & Hsent).
    set (w1 := with_errs _ _) in *.
    assert (Hb1 : Forall (pending w1) b).
    { apply Forall_forall. intros j' Hj'.
      rewrite Forall_forall in Hb.
      apply (pending_only_touched [j] w w1); auto.
      - simpl. intros Hin. apply list_elem_of_singleton in Hin.
        apply Hjr. rewrite <- Hin. now apply list_elem_of_fmap_2.
      - simpl. intros Hin. apply list_elem_of_singleton in Hin.
        apply Hje. rewrite <- Hin. now apply list_elem_of_fmap_2. }
    destruct (IH w1 Hsep Hb1) as (w' & Hrun & Hall & Htouch' & Hbw' & Hsent').
    exists w'. split; [|split; [|split; [|split]]].
    + simpl. unfold bind. destruct Hj as [Hr He].
      rewrite (send_result_empty w _ None Hr).
      rewrite send_err_empty by exact He. exact Hrun.
    + apply Forall_cons. split; [|exact Hall].
      apply (resolved_only_touched b w1 w'); auto.
    + apply (only_touched_trans [j] b w w1 w'); assumption.
    + congruence.
    + congruence.
Qed.

(** C5. A dispatch whose transport call returns an error and no response,
    on a batch of separate jobs none of which has been answered yet: every
    job of the batch, sent or not, gets [(nil, err)] on its channels, the
    queue is what [makeBatch] left (no job of the batch goes back), the
    counter is back to its value; the dispatch then ends in the panic of
    the nil response. *)
Theorem transport_error_fails_batch (tr : transport) (fl : bool) (w : World)
    (e : error) :
  let b := take 20 (backlogQueue (bw w)) in
  let req := {| Database := database (bw w); Writes := collect b |} in
  (0 <= reqs (bw w) < DEFAULT_STARTING_MAXIMUM_OPS_PER_SECOND)%Z ->
  collect b <> [] ->
  tr (sent w) req = (None, Some e) ->
  separate b -> Forall (pending w) b ->
  exists w',
    execute tr fl w = Panicked w' /\
    Forall (fun j => resolved w' j None (Some e)) b /\
    backlogQueue (bw w') = drop 20 (backlogQueue (bw w)) /\
    reqs (bw w') = reqs (bw w) /\
    sent w' = sent w ++ [req].
Proof.
  intros b req Hreqs Hws Htr Hsep Hpend.
  unfold DEFAULT_STARTING_MAXIMUM_OPS_PER_SECOND in Hreqs.
  set (w2 := with_sent (sent w ++ [req])
               (set_bw (fun c => with_reqs (wrap_int (reqs c + 1)) c)
                  (set_bw (with_backlogQueue (drop 20 (backlogQueue (bw w)))) w))).
  destruct (fail_all_pending e b w2 Hsep Hpend)
    as (w3 & Hrun & Hall & _ & Hbw & Hsent).
  exists (set_bw (fun c => with_reqs (wrap_int (reqs c - 1)) c) w3).
  split; [|split; [|split; [|split]]].
  - unfold execute, bind.
    rewrite execute_send_eq by (unfold DEFAULT_STARTING_MAXIMUM_OPS_PER_SECOND; lia).
    fold b. cbv zeta. rewrite decide_False by exact Hws.
    unfold call_BatchWrite. cbn [sent set_bw]. fold req. rewrite Htr.
    unfold execute_recv, bind. fold w2. rewrite Hrun. reflexivity.
  - exact Hall.
  - simpl. rewrite Hbw. reflexivity.
  - simpl. rewrite Hbw. simpl.
    rewrite (wrap_int_small (reqs (bw w) + 1)) by lia.
    rewrite wrap_int_small by lia. lia.
  - simpl. rewrite Hsent. reflexivity.
Qed.

Lemma transport_error_fails_batch_witness :
  let w := two_queued in
  let e := "rpc error: code = Unavailable"%string in
  backlogQueue (bw w)
  = [ {| err := 0; result := 0; write := 7; attempts := 0 |};
      {| err := 1; result := 1; write := 8; attempts := 0 |} ] /\
  exists w',
    execute failing false w = Panicked w' /\
    Forall (fun j => resolved w' j None (Some e)) (take 20 (backlogQueue (bw w))) /\
    backlogQueue (bw w') = drop 20 (backlogQueue (bw w)) /\
    reqs (bw w') = reqs (bw w) /\
    sent w' = sent w ++ [ {| Database := database (bw w);
                             Writes := collect (take 20 (backlogQueue (bw w))) |} ].
Proof.
  split; [reflexivity|].
  apply (transport_error_fails_batch failing false two_queued).
  - simpl. unfold DEFAULT_STARTING_MAXIMUM_OPS_PER_SECOND. lia.
  - discriminate.
  - reflexivity.
  - split; refine (bool_decide_unpack _ _); vm_compute; exact I.
  - repeat constructor.
Defined.

(** ** A batch that the server applies *)

(** One turn of the response loop on a code 0. *)
Lemma route_cons_ok b resp i res rs s j w :
  Status resp !! i = Some s -> GetCode s = 0%Z -> b !! i = Some j ->
  route b resp i (res :: rs) w
  = (send_result (result j) res ;;;
     send_err (err j) None ;;;
     route b resp (S i) rs) w.
Proof.
  intros Hsi Hs Hbi. simpl. unfold bind, index.
  rewrite Hsi. unfold ret. rewrite Hs, Hbi. reflexivity.
Qed.

(** The response loop from index [i] on, when the jobs and statuses from
    [i] on are as many as the results left, every code is 0 and the jobs are
    separate and unanswered: the [k]-th job gets the [k]-th result and a
    nil error, and nothing else changes. *)
Lemma route_applied b resp : forall rs i js ss w,
  drop i b = js -> drop i (Status resp) = ss ->
  length js = length rs -> length ss = length rs ->
  Forall (fun s => GetCode s = 0%Z) ss ->
  separate js -> Forall (pending w) js ->
  exists w',
    route b resp i rs w = Returned tt w' /\
    Forall2 (fun j r => resolved w' j r None) js rs /\
    only_touched js w w' /\ bw w' = bw w /\ sent w' = sent w.
Proof.
  induction rs as [|res rs IH]; intros i js ss w Hjs Hss Hlj Hls Hok Hsep Hpend.
  - destruct js; [|discriminate]. exists w.
    split; [reflexivity|]. split; [constructor|]. repeat split; auto.
  - destruct js as [|j js']; [discriminate|].
    destruct ss as [|s ss']; [discriminate|].
    assert (Hbi : b !! i = Some j).
    { rewrite <- (Nat.add_0_r i), <- lookup_drop, Hjs. reflexivity. }
    assert (Hsi : Status resp !! i = Some s).
    { rewrite <- (Nat.add_0_r i), <- lookup_drop, Hss. reflexivity. }
    assert (Hjs' : drop (S i) b = js').
    { rewrite (drop_S _ _ _ Hbi) in Hjs. congruence. }
    assert (Hss' : drop (S i) (Status resp) = ss').
    { rewrite (drop_S _ _ _ Hsi) in Hss. congruence. }
    apply Forall_cons in Hok as [Hs Hok].
    apply separate_cons in Hsep as (Hjr & Hje & Hsep).
    apply Forall_cons in Hpend as [Hj Hpend].
    destruct (resolve_job w j res None Hj) as (Hres & Htouch & Hbw & Hsent).
    set (w1 := with_errs _ _) in *.
    assert (Hpend1 : Forall (pending w1) js').
    { apply Forall_forall. intros j' Hj'. rewrite Forall_forall in Hpend.
      apply (pending_only_touched [j] w w1); auto.
      - simpl. intros Hin. apply list_elem_of_singleton in Hin.
        apply Hjr. rewrite <- Hin. now apply list_elem_of_fmap_2.
      - simpl. intros Hin. apply list_elem_of_singleton in Hin.
        apply Hje. rewrite <- Hin. now apply list_elem_of_fmap_2. }
    simpl in Hlj, Hls.
    destruct (IH (S i) js' ss' w1 Hjs' Hss' ltac:(lia) ltac:(lia) Hok Hsep Hpend1)
      as (w' & Hrun & Hall & Htouch' & Hbw' & Hsent').
    exists w'. split; [|split; [|split; [|split]]].
    + rewrite (route_cons_ok b resp i res rs s j w Hsi Hs Hbi).
      unfold bind. destruct Hj as [Hr He].
      rewrite (send_result_empty w _ res Hr).
      rewrite send_err_empty by exact He. exact Hrun.
    + constructor; [|exact Hall].
      apply (resolved_only_touched js' w1 w'); auto.
    + apply (only_touched_trans [j] js' w w1 w'); assumption.
    + congruence.
    + congruence.
Qed.

(** One dispatch on a non-empty queue whose first batch has attempts left,
    with a transport that applies every write: the first twenty jobs (or
    all of them) are popped, their writes go out in one request in queue
    order, each caller gets a result and a nil error, and the counter is
    back to its value. *)
Lemma execute_applied tr fl w :
  applies_all tr ->
  let q := backlogQueue (bw w) in
  let b := take 20 q in
  (0 <= reqs (bw w) < DEFAULT_STARTING_MAXIMUM_OPS_PER_SECOND)%Z ->
  q <> [] ->
  Forall (fun j => (attempts j < MAX_RETRY_ATTEMPTS)%Z) b ->
  separate b -> Forall (pending w) b ->
  exists w',
    execute tr fl w = Returned tt w' /\
    backlogQueue (bw w') = drop 20 q /\
    sent w' = sent w ++ [ {| Database := database (bw w); Writes := write <$> b |} ] /\
    reqs (bw w') = reqs (bw w) /\
    Forall (fun j => exists r, resolved w' j (Some r) None) b /\
    only_touched b w w'.
Proof.
  intros Htr q b Hreqs Hq Hfresh Hsep Hpend.
  unfold DEFAULT_STARTING_MAXIMUM_OPS_PER_SECOND in Hreqs.
  pose proof (collect_all b Hfresh) as Hcol.
  assert (Hb : b <> []).
  { subst b. destruct q; [congruence|discriminate]. }
  assert (Hws : collect b <> []).
  { rewrite Hcol. destruct b; [congruence|discriminate]. }
  set (req := {| Database := database (bw w); Writes := collect b |}).
  destruct (Htr (sent w) req) as (resp & Hreply & Hlr & Hls & Hok & Hsome).
  set (w2 := set_bw (fun c => with_reqs (wrap_int (reqs c - 1)) c)
               (with_sent (sent w ++ [req])
                  (set_bw (fun c => with_reqs (wrap_int (reqs c + 1)) c)
                     (set_bw (with_backlogQueue (drop 20 q)) w)))).
  assert (Hlen : length (collect b) = length b).
  { rewrite Hcol. apply length_fmap. }
  simpl in Hlr, Hls.
  destruct (route_applied b resp (WriteResults resp) 0 b (Status resp) w2)
    as (w' & Hrun & Hall & Htouch & Hbw & Hsent);
    [reflexivity|reflexivity|lia|lia|exact Hok|exact Hsep|exact Hpend|].
  exists w'. split; [|split; [|split; [|split; [|split]]]].
  - unfold execute, bind.
    rewrite execute_send_eq by (unfold DEFAULT_STARTING_MAXIMUM_OPS_PER_SECOND; lia).
    fold q b. cbv zeta. rewrite decide_False by exact Hws.
    unfold call_BatchWrite. cbn [sent set_bw]. fold req. rewrite Hreply.
    unfold execute_recv, bind, ret, modify. exact Hrun.
  - rewrite Hbw. reflexivity.
  - rewrite Hsent. subst w2 req. cbn [sent set_bw with_sent]. rewrite Hcol. reflexivity.
  - rewrite Hbw. simpl.
    rewrite (wrap_int_small (reqs (bw w) + 1)) by lia.
    rewrite wrap_int_small by lia. lia.
  - clear -Hall Hsome. induction Hall as [|j r js rs Hj _ IH].
    + constructor.
    + apply Forall_cons in Hsome as [[x ->] Hsome].
      constructor; [now exists x | now apply IH].
  - exact Htouch.
Qed.

(** ** Draining a queue of new writes *)

Lemma separate_app b1 b2 :
  separate (b1 ++ b2) ->
  separate b1 /\ separate b2 /\
  (forall j, j ∈ b1 -> (result j ∉ result <$> b2) /\ (err j ∉ err <$> b2)) /\
  (forall j, j ∈ b2 -> (result j ∉ result <$> b1) /\ (err j ∉ err <$> b1)).
Proof.
  intros [Hr He]. rewrite fmap_app in Hr, He.
  apply NoDup_app in Hr as (Hr1 & Hr12 & Hr2).
  apply NoDup_app in He as (He1 & He12 & He2).
  split; [split; assumption|]. split; [split; assumption|]. split.
  - intros j Hj. split.
    + apply Hr12. now apply list_elem_of_fmap_2.
    + apply He12. now apply list_elem_of_fmap_2.
  - intros j Hj. split.
    + intros Hin. apply (Hr12 _ Hin). now apply list_elem_of_fmap_2.
    + intros Hin. apply (He12 _ Hin). now apply list_elem_of_fmap_2.
Qed.

Lemma ceil_div_step n : 0 < n -> ceil_div n 20 = S (ceil_div (n - 20) 20).
Proof.
  intros Hn. unfold ceil_div.
  destruct (le_lt_dec 20 n) as [Hge|Hlt].
  - replace (n + 20 - 1) with ((n - 20 + 20 - 1) + 1 * 20) by lia.
    rewrite Nat.div_add by lia. lia.
  - replace (n - 20) with 0 by lia.
    rewrite (Nat.div_small (0 + 20 - 1)) by lia.
    symmetry. apply (Nat.div_unique _ _ 1 (n - 1)); lia.
Qed.

(** The loop of [Flush] on a queue of separate, unanswered jobs that have
    never been sent, with a transport that applies every write: given a
    round of fuel for every twenty jobs, it returns, having drained the
    queue. *)
Lemma Flush_loop_drains tr :
  applies_all tr ->
  forall fuel w,
    let q := backlogQueue (bw w) in
    (0 <= reqs (bw w) < DEFAULT_STARTING_MAXIMUM_OPS_PER_SECOND)%Z ->
    Forall (fun j => attempts j = 0%Z) q ->
    separate q -> Forall (pending w) q ->
    length q <= 20 * fuel ->
    exists w' batches,
      Flush_loop tr fuel w = Returned tt w' /\
      drained_into q w w' batches /\ only_touched q w w'.
Proof.
  intros Htr. induction fuel as [|fuel IH]; intros w q Hreqs Hnew Hsep Hpend Hlen.
  - destruct q as [|j q'] eqn:Hq; [|simpl in Hlen; lia].
    exists w, []. split.
    + simpl. fold q. now rewrite Hq.
    + split; [|split; auto].
      unfold drained_into. rewrite app_nil_r.
      repeat split; auto; try constructor. intros i r Hi. discriminate Hi.
  - destruct (decide (q = [])) as [Hq|Hq].
    { exists w, []. split.
      - simpl. fold q. now rewrite Hq.
      - rewrite Hq. split; [|split; auto].
        unfold drained_into. rewrite app_nil_r.
        repeat split; auto; try constructor. intros i r Hi. discriminate Hi. }
    set (b := take 20 q). set (rest := drop 20 q).
    assert (Hsplit : q = b ++ rest) by (symmetry; apply take_drop).
    assert (Hnewb : Forall (fun j => (attempts j < MAX_RETRY_ATTEMPTS)%Z) b).
    { apply Forall_take. eapply Forall_impl; [exact Hnew|].
      intros j Hj. simpl in Hj. rewrite Hj. reflexivity. }
    pose proof Hsep as Hsep0. rewrite Hsplit in Hsep0.
    apply separate_app in Hsep0 as (Hsepb & Hseprest & Hb_rest & Hrest_b).
    destruct (execute_applied tr true w Htr Hreqs Hq Hnewb Hsepb
                ltac:(apply Forall_take; exact Hpend))
      as (w1 & Hrun1 & Hq1 & Hsent1 & Hreqs1 & Hres1 & Htouch1).
    fold q b rest in Hq1, Hsent1, Hres1, Htouch1.
    assert (Hpend1 : Forall (pending w1) rest).
    { apply Forall_forall. intros j Hj.
      destruct (Hrest_b j Hj) as [Hjr Hje].
      apply (pending_only_touched b w w1); auto.
      rewrite Forall_forall in Hpend. apply Hpend.
      rewrite Hsplit. apply elem_of_app. now right. }
    destruct (IH w1) as (w' & batches & Hrun & Hdr & Htouch).
    { rewrite Hreqs1. exact Hreqs. }
    { rewrite Hq1. now apply Forall_drop. }
    { rewrite Hq1. exact Hseprest. }
    { rewrite Hq1. exact Hpend1. }
    { rewrite Hq1. unfold rest. rewrite length_drop. lia. }
    rewrite Hq1 in Hdr, Htouch.
    destruct Hdr as (Hsent & Hcount & Hsizes & Hfull & Hcat & Hempty & Hreqs' & Hres).
    exists w', ({| Database := database (bw w); Writes := write <$> b |} :: batches).
    split; [|split].
    + change (Flush_loop tr (S fuel) w)
        with (if (0 <? Z.of_nat (length q))%Z
              then (execute tr true ;;; Flush_loop tr fuel) w
              else Returned tt w).
      assert (Hpos : (0 <? Z.of_nat (length q))%Z = true).
      { apply Z.ltb_lt. destruct q; [congruence|simpl; lia]. }
      rewrite Hpos. unfold bind. rewrite Hrun1. exact Hrun.
    + unfold drained_into.
      split; [|split; [|split; [|split; [|split; [|split; [|split]]]]]].
      * rewrite Hsent, Hsent1, <- app_assoc. reflexivity.
      * simpl. rewrite Hcount. unfold rest. rewrite length_drop.
        symmetry. apply ceil_div_step. destruct q; [congruence|simpl; lia].
      * constructor; [|exact Hsizes].
        simpl. rewrite length_fmap. unfold b. rewrite length_take. lia.
      * intros [|i] r Hi Hlast.
        -- inversion Hi; subst r. simpl in Hlast |- *.
           rewrite length_fmap. unfold b. rewrite length_take.
           assert (Hrest : 0 < length rest).
           { destruct (length rest) eqn:Hl; [|lia].
             rewrite Hcount in Hlast. vm_compute in Hlast. lia. }
           unfold rest in Hrest. rewrite length_drop in Hrest. lia.
        -- simpl in Hi, Hlast. apply (Hfull i r Hi). lia.
      * rewrite fmap_cons. cbn [concat Writes].
        rewrite Hcat, <- fmap_app, <- Hsplit. reflexivity.
      * exact Hempty.
      * congruence.
      * rewrite Hsplit. apply Forall_app. split; [|exact Hres].
        apply Forall_forall. intros j Hj. rewrite Forall_forall in Hres1.
        destruct (Hres1 j Hj) as [r Hr]. exists r.
        destruct (Hb_rest j Hj) as [Hjr Hje].
        apply (resolved_only_touched rest w1 w'); auto.
    + rewrite Hsplit. apply (only_touched_trans b rest w w1 w'); assumption.
Qed.

Lemma applies_all_one_sided tr : applies_all tr -> one_sided tr.
Proof.
  intros Htr hist req resp e Heq.
  destruct (Htr hist req) as (resp' & Hreply & _). congruence.
Qed.

Lemma accepting_applies_all : applies_all accepting.
Proof.
  intros hist req. eexists. split; [reflexivity|]. simpl.
  induction (Writes req) as [|x ws IH]; simpl.
  - repeat split; constructor.
  - destruct IH as (H1 & H2 & H3 & H4).
    repeat split; try (f_equal; assumption); constructor; eauto.
Qed.

(** [Flush] on an empty queue makes no call. *)
Lemma Flush_empty tr fuel w :
  (reqs (bw w) < DEFAULT_STARTING_MAXIMUM_OPS_PER_SECOND)%Z ->
  backlogQueue (bw w) = [] ->
  Flush tr fuel w = Returned tt (set_bw (with_backlogQueue []) w).
Proof.
  intros Hreqs Hq. unfold Flush, execute, bind.
  rewrite execute_send_eq by exact Hreqs. rewrite Hq. simpl.
  destruct fuel; reflexivity.
Qed.

(** C8, amended. When the writes are all in the queue before the first
    dispatch (jobs that have never been sent, unanswered, with channels of
    their own), the counter is below the guardrail and the transport applies
    every write, [Flush] returns once it has a round of fuel for every
    twenty jobs; the transport has then received exactly
    [ceil_div N MAX_BATCH_SIZE] requests, none of more than
    [MAX_BATCH_SIZE] writes and all but the last of exactly that many, which
    put end to end are the writes of the queue in order (for 25 writes: one
    request of 20, then one of 5); the queue is empty, the counter is
    unchanged and every caller has a result and a nil error. *)
Theorem Flush_batches_queued_writes (tr : transport) (fuel : nat) (w : World) :
  let q := backlogQueue (bw w) in
  applies_all tr ->
  (0 <= reqs (bw w) < DEFAULT_STARTING_MAXIMUM_OPS_PER_SECOND)%Z ->
  Forall (fun j => attempts j = 0%Z) q ->
  separate q -> Forall (pending w) q ->
  length q / 20 <= fuel ->
  exists w' batches,
    Flush tr fuel w = Returned tt w' /\
    sent w' = sent w ++ batches /\
    length batches = ceil_div (length q) (Z.to_nat MAX_BATCH_SIZE) /\
    Forall (fun r => length (Writes r) <= Z.to_nat MAX_BATCH_SIZE) batches /\
    (forall i r, batches !! i = Some r -> S i < length batches ->
                 length (Writes r) = Z.to_nat MAX_BATCH_SIZE) /\
    concat (Writes <$> batches) = write <$> q /\
    backlogQueue (bw w') = [] /\
    reqs (bw w') = reqs (bw w) /\
    Forall (fun j => exists r, resolved w' j (Some r) None) q.
Proof.
  intros q Htr Hreqs Hnew Hsep Hpend Hfuel.
  destruct (decide (q = [])) as [Hq|Hq].
  - exists (set_bw (with_backlogQueue []) w), [].
    split; [apply Flush_empty; [lia|exact Hq]|].
    rewrite Hq, app_nil_r. repeat split; try constructor.
    intros i r Hi. discriminate Hi.
  - destruct (Flush_loop_drains tr Htr (S fuel) w Hreqs Hnew Hsep Hpend)
      as (w' & batches & Hrun & Hdr & _).
    { fold q. pose proof (Nat.div_mod_eq (length q) 20) as Hdm.
      pose proof (Nat.mod_upper_bound (length q) 20 ltac:(lia)) as Hm. lia. }
    exists w', batches. split; [|exact Hdr].
    rewrite <- Hrun. unfold Flush.
    change (Flush_loop tr (S fuel) w)
      with (if (0 <? Z.of_nat (length q))%Z
            then (execute tr true ;;; Flush_loop tr fuel) w
            else Returned tt w).
    assert (Hpos : (0 <? Z.of_nat (length q))%Z = true).
    { apply Z.ltb_lt. destruct q; [congruence|simpl; lia]. }
    now rewrite Hpos.
Qed.

Lemma Flush_batches_queued_writes_witness :
  let w := twenty_five_queued in
  length (backlogQueue (bw w)) = 25 /\
  (exists w' batches,
    Flush accepting 1 w = Returned tt w' /\
    sent w' = sent w ++ batches /\
    length batches = ceil_div (length (backlogQueue (bw w))) (Z.to_nat MAX_BATCH_SIZE) /\
    Forall (fun r => length (Writes r) <= Z.to_nat MAX_BATCH_SIZE) batches /\
    (forall i r, batches !! i = Some r -> S i < length batches ->
                 length (Writes r) = Z.to_nat MAX_BATCH_SIZE) /\
    concat (Writes <$> batches) = write <$> backlogQueue (bw w) /\
    backlogQueue (bw w') = [] /\
    reqs (bw w') = reqs (bw w) /\
    Forall (fun j => exists r, resolved w' j (Some r) None) (backlogQueue (bw w))) /\
  sent (final (Flush accepting 1 w)) = [request (seq 0 20); request (seq 20 5)].
Proof.
  split; [vm_compute; reflexivity|]. split; [|vm_compute; reflexivity].
  apply (Flush_batches_queued_writes accepting 1 twenty_five_queued).
  - exact accepting_applies_all.
  - change (0 <= 0 < 500)%Z. lia.
  - refine (bool_decide_unpack _ _); vm_compute; exact I.
  - split; refine (bool_decide_unpack _ _); vm_compute; exact I.
  - vm_compute; repeat constructor.
  - vm_compute. lia.
Defined.

(** ** The queue stays in order *)

Lemma queue_ok_new db : queue_ok (NewCallersBulkWriter db).
Proof. split; [split|]; constructor. Qed.

Lemma separate_middle l1 j l2 :
  separate (l1 ++ j :: l2) ->
  (result j ∉ result <$> (l1 ++ l2)) /\ (err j ∉ err <$> (l1 ++ l2)) /\
  separate (l1 ++ l2).
Proof.
  intros [Hr He]. rewrite fmap_app, fmap_cons in Hr, He.
  rewrite <- Permutation_middle in Hr, He.
  apply NoDup_cons in Hr as [Hr1 Hr2]. apply NoDup_cons in He as [He1 He2].
  rewrite <- fmap_app in Hr1, Hr2, He1, He2. repeat split; assumption.
Qed.

(** The response loop, whatever the response holds: no send blocks, and
    the jobs put back on the queue are unanswered. *)
Lemma route_keeps_queue b resp : forall rs i w,
  queue_ok_from b i w -> keeps_queue (route b resp i rs w).
Proof.
  induction rs as [|res rs IH]; intros i w [Hsep Hpend].
  - simpl. apply separate_app in Hsep as (Hs & _).
    apply Forall_app in Hpend as [Hp _]. split; assumption.
  - simpl. unfold bind at 1. unfold index at 1.
    destruct (Status resp !! i) as [s|]; [|exact I].
    unfold ret at 1. destruct (negb (GetCode s =? 0)%Z).
    + unfold bind at 1. unfold index at 1.
      destruct (b !! i) as [j|] eqn:Hbi; [|exact I].
      unfold ret at 1. unfold bind at 1. unfold append_backlog, modify.
      apply IH. unfold queue_ok_from. cbn [bw set_bw backlogQueue with_backlogQueue].
      rewrite <- app_assoc. cbn [app]. rewrite <- (drop_S _ _ _ Hbi).
      split; [exact Hsep|].
      eapply Forall_impl; [exact Hpend|]. intros j' Hj'. exact Hj'.
    + unfold bind at 1. unfold index at 1.
      destruct (b !! i) as [j|] eqn:Hbi; [|exact I].
      unfold ret at 1. rewrite (drop_S _ _ _ Hbi) in Hsep, Hpend.
      apply separate_middle in Hsep as (Hjr & Hje & Hsep).
      apply Forall_app in Hpend as [Hpq Hpend].
      apply Forall_cons in Hpend as [Hj Hprest].
      destruct (resolve_job w j res None Hj) as (_ & Htouch & Hbw & _).
      set (w1 := with_errs _ _) in *.
      destruct Hj as [Hr He]. unfold bind.
      rewrite (send_result_empty w _ res Hr). unfold index. rewrite Hbi.
      unfold ret at 1. rewrite send_err_empty by exact He.
      apply IH. split; [exact Hsep|].
      apply Forall_forall. intros j' Hj'.
      change (j' ∈ backlogQueue (bw w) ++ drop (S i) b) in Hj'.
      apply (pending_only_touched [j] w w1); auto.
      * simpl. intros Hin. apply list_elem_of_singleton in Hin.
        apply Hjr. rewrite <- Hin. now apply list_elem_of_fmap_2.
      * simpl. intros Hin. apply list_elem_of_singleton in Hin.
        apply Hje. rewrite <- Hin. now apply list_elem_of_fmap_2.
      * apply elem_of_app in Hj' as [Hq|Hrest].
        -- rewrite Forall_forall in Hpq. now apply Hpq.
        -- rewrite Forall_forall in Hprest. now apply Hprest.
Qed.

(** One dispatch, whatever a one-sided transport answers: no send blocks
    and, if the call returns, the queue is in order again. *)
Lemma execute_keeps_queue tr fl w :
  one_sided tr -> queue_ok w -> keeps_queue (execute tr fl w).
Proof.
  intros Htr [Hsep Hpend]. unfold execute, bind.
  destruct (Z_lt_le_dec (reqs (bw w)) DEFAULT_STARTING_MAXIMUM_OPS_PER_SECOND)
    as [Hlt|Hge].
  2:{ rewrite execute_send_guard by exact Hge. split; assumption. }
  rewrite execute_send_eq by exact Hlt. cbv zeta.
  set (q := backlogQueue (bw w)) in *.
  pose proof Hsep as Hsep0. rewrite <- (take_drop 20 q) in Hsep0.
  apply separate_app in Hsep0 as (Hsepb & Hseprest & _ & _).
  destruct (decide (collect (take 20 q) = [])) as [Hc|Hc].
  { split; [exact Hseprest|]. now apply Forall_drop. }
  unfold call_BatchWrite. cbn [sent set_bw].
  set (req := {| Database := database (bw w); Writes := collect (take 20 q) |}).
  set (w2 := with_sent _ _).
  assert (Hfrom : queue_ok_from (take 20 q) 0 w2).
  { unfold queue_ok_from. cbn [drop]. subst w2.
    cbn [bw set_bw with_sent backlogQueue with_backlogQueue with_reqs]. split.
    - destruct Hsep as [Hr He]. rewrite <- (take_drop 20 q) in Hr, He.
      split; rewrite fmap_app in *.
      + now rewrite (Permutation_app_comm (result <$> drop 20 q)).
      + now rewrite (Permutation_app_comm (err <$> drop 20 q)).
    - apply Forall_app. split; [now apply Forall_drop | now apply Forall_take]. }
  destruct (tr (sent w) req) as [[resp|] [e|]] eqn:Hreply.
  - exfalso. exact (Htr _ _ _ _ Hreply).
  - unfold execute_recv, bind, ret, modify.
    apply route_keeps_queue. exact Hfrom.
  - unfold execute_recv, bind.
    destruct (fail_all_pending e (take 20 q) w2 Hsepb) as (w3 & Hrun & _).
    { now apply Forall_take. }
    rewrite Hrun. exact I.
  - exact I.
Qed.

(** The enqueuing part of [Create] makes channels that no queued job has. *)
Lemma Create_enqueue_keeps_queue {DocumentRef Datum : Type}
    (enc : DocumentRef -> Datum -> list Write * option error)
    (spr : Datum -> string) (doc : option DocumentRef) (datum : Datum) w :
  queue_ok w -> keeps_queue (Create_enqueue enc spr doc datum w).
Proof.
  intros [[Hr He] Hpend]. unfold Create_enqueue, bind, get.
  destruct (negb (isOpen (bw w))); [split; [split|]; assumption|].
  destruct doc as [d|]; [|split; [split|]; assumption].
  destruct (enc d datum) as [ws [e|]]; [split; [split|]; assumption|].
  unfold make_result, make_err, chan_make, index. cbn [errs with_results].
  destruct (ws !! 0) as [w0|]; [|exact I].
  unfold ret, append_backlog, modify. unfold keeps_queue, queue_ok.
  cbn [bw set_bw with_errs with_results backlogQueue with_backlogQueue].
  assert (Hlt : forall j, j ∈ backlogQueue (bw w) ->
                  result j < length (results w) /\ err j < length (errs w)).
  { intros j Hj. rewrite Forall_forall in Hpend. destruct (Hpend j Hj) as [H1 H2].
    split; eapply lookup_lt_Some; eassumption. }
  split; [split|].
  - rewrite fmap_app. apply NoDup_app. split; [exact Hr|]. split; [|apply NoDup_singleton].
    intros c Hc Hin. apply list_elem_of_singleton in Hin. subst c.
    apply list_elem_of_fmap_1 in Hc as (j & Hj & Hin).
    destruct (Hlt j Hin) as [H1 _]. simpl in Hj. lia.
  - rewrite fmap_app. apply NoDup_app. split; [exact He|]. split; [|apply NoDup_singleton].
    intros c Hc Hin. apply list_elem_of_singleton in Hin. subst c.
    apply list_elem_of_fmap_1 in Hc as (j & Hj & Hin).
    destruct (Hlt j Hin) as [_ H2]. simpl in Hj. lia.
  - apply Forall_app. split.
    + apply Forall_forall. intros j Hj. rewrite Forall_forall in Hpend.
      destruct (Hpend j Hj) as [H1 H2]. split; simpl.
      * now apply lookup_app_l_Some.
      * now apply lookup_app_l_Some.
    + constructor; [|constructor]. split; simpl.
      * rewrite lookup_app_r by lia. now rewrite Nat.sub_diag.
      * rewrite lookup_app_r by lia. now rewrite Nat.sub_diag.
Qed.

(** ** What holds of every reachable world *)

(** The response loop only puts jobs of the batch on the queue, as they
    are. *)
Lemma route_backlog (P : bulkWriterJob -> Prop) b resp : forall rs i w,
  Forall P b -> Forall P (backlogQueue (bw w)) ->
  Forall P (backlogQueue (bw (final (route b resp i rs w)))).
Proof.
  induction rs as [|res rs IH]; intros i w Hb Hq; [exact Hq|].
  simpl. unfold bind at 1. unfold index at 1.
  destruct (Status resp !! i) as [s|]; [|exact Hq].
  unfold ret at 1. destruct (negb (GetCode s =? 0)%Z).
  - unfold bind at 1. unfold index at 1.
    destruct (b !! i) as [j|] eqn:Hbi; [|exact Hq].
    unfold ret at 1. unfold bind at 1. unfold append_backlog, modify.
    apply IH; [exact Hb|]. simpl. apply Forall_app. split; [exact Hq|].
    constructor; [|constructor].
    rewrite Forall_forall in Hb. apply Hb. eapply list_elem_of_lookup_2. exact Hbi.
  - unfold bind at 1. unfold index at 1.
    destruct (b !! i) as [j|] eqn:Hbi; [|exact Hq].
    unfold ret at 1. unfold bind at 1. unfold send_result at 1.
    destruct (chan_send (results w) (result j) res) as [h|]; [|exact Hq].
    unfold bind at 1. unfold index at 1. rewrite Hbi. unfold ret at 1.
    unfold bind at 1. unfold send_err at 1. cbn [errs with_results].
    destruct (chan_send (errs w) (err j) None) as [h'|]; [|exact Hq].
    apply IH; [exact Hb|exact Hq].
Qed.

(** A dispatch leaves on the queue only jobs that were on it, as they
    were. *)
Lemma execute_backlog (P : bulkWriterJob -> Prop) tr fl w :
  Forall P (backlogQueue (bw w)) ->
  Forall P (backlogQueue (bw (final (execute tr fl w)))).
Proof.
  intros Hq. unfold execute, bind.
  destruct (Z_lt_le_dec (reqs (bw w)) DEFAULT_STARTING_MAXIMUM_OPS_PER_SECOND)
    as [Hlt|Hge].
  2:{ rewrite execute_send_guard by exact Hge. exact Hq. }
  rewrite execute_send_eq by exact Hlt. cbv zeta.
  set (q := backlogQueue (bw w)) in *.
  destruct (decide (collect (take 20 q) = [])) as [Hc|Hc].
  { simpl. now apply Forall_drop. }
  unfold call_BatchWrite. cbn [sent set_bw].
  set (w2 := with_sent _ _).
  assert (Hq2 : Forall P (backlogQueue (bw w2))) by (simpl; now apply Forall_drop).
  destruct (tr (sent w) _) as [resp e]. unfold execute_recv, bind.
  assert (Hq3 : Forall P (backlogQueue (bw (final
                  (match e with Some x => fail_all (take 20 q) x | None => ret tt end w2))))).
  { destruct e as [x|]; [|exact Hq2].
    rewrite (stable_fail_all (fun w => backlogQueue (bw w))); auto. }
  destruct (match e with Some x => fail_all (take 20 q) x | None => ret tt end w2)
    as [u w3|w3|w3|w3]; try exact Hq3.
  unfold modify. destruct resp as [rp|]; [|exact Hq3].
  apply route_backlog; [now apply Forall_take | exact Hq3].
Qed.

(** The receives that end a [Create] leave the writer alone. *)
Lemma Create_await_bw j w x w' :
  Create_await j w = Returned x w' -> bw w' = bw w.
Proof.
  unfold Create_await, bind, recv_result, recv_err.
  destruct (chan_recv (results w) (result j)) as [[v h]|]; [|discriminate].
  cbn [errs with_results].
  destruct (chan_recv (errs w) (err j)) as [[v' h']|]; [|discriminate].
  intros H. inversion H. reflexivity.
Qed.

(** No step ever writes [attempts]: on every reachable world, every queued
    job has the count 0 that [Create] gave it. *)
Lemma reachable_attempts tr w :
  reachable tr w -> Forall (fun j => attempts j = 0%Z) (backlogQueue (bw w)).
Proof.
  induction 1 as [db|D T enc spr doc datum w x w' _ IH Hstep
                  |fl w w' _ IH Hstep|j w x w' _ IH Hstep|w _ IH].
  - constructor.
  - revert Hstep. unfold Create_enqueue, bind, get.
    destruct (negb (isOpen (bw w))); [intros H; inversion H; subst; exact IH|].
    destruct doc as [d|]; [|intros H; inversion H; subst; exact IH].
    destruct (enc d datum) as [ws [e|]]; [intros H; inversion H; subst; exact IH|].
    unfold make_result, make_err, chan_make, index. cbn [errs with_results].
    destruct (ws !! 0) as [w0|]; [|discriminate].
    unfold ret, append_backlog, modify. intros H. inversion H. subst. simpl.
    apply Forall_app. split; [exact IH|]. repeat constructor.
  - pose proof (execute_backlog _ tr fl w IH) as H. now rewrite Hstep in H.
  - now rewrite (Create_await_bw _ _ _ _ Hstep).
  - exact IH.
Qed.

Lemma chan_recv_other {A} (h h' : list (list A)) c c' v :
  chan_recv h c = Some (v, h') -> h !! c' = Some [] -> h' !! c' = Some [].
Proof.
  unfold chan_recv. destruct (h !! c) as [[|x buf]|] eqn:Hc; try discriminate.
  intros H Hc'. inversion H; subst.
  rewrite list_lookup_insert_ne; [exact Hc'|]. intros ->.
  assert (X : Some (v :: buf) = Some (@nil A)) by (rewrite <- Hc; exact Hc').
  discriminate X.
Qed.

Lemma Create_await_keeps_queue j w x w' :
  Create_await j w = Returned x w' -> queue_ok w -> queue_ok w'.
Proof.
  intros Hstep [Hsep Hpend]. pose proof (Create_await_bw _ _ _ _ Hstep) as Hbw.
  unfold queue_ok. rewrite Hbw. split; [exact Hsep|].
  revert Hstep. unfold Create_await, bind, recv_result, recv_err.
  destruct (chan_recv (results w) (result j)) as [[v h]|] eqn:Hr; [|discriminate].
  cbn [errs with_results].
  destruct (chan_recv (errs w) (err j)) as [[v' h']|] eqn:He; [|discriminate].
  intros H. inversion H; subst. clear H.
  eapply Forall_impl; [exact Hpend|]. intros j' [H1 H2]. split; simpl.
  - exact (chan_recv_other _ _ _ _ _ Hr H1).
  - exact (chan_recv_other _ _ _ _ _ He H2).
Qed.

(** With a one-sided transport, on every reachable world the queued jobs
    are unanswered and have channels of their own. *)
Lemma reachable_queue_ok tr w :
  one_sided tr -> reachable tr w -> queue_ok w.
Proof.
  intros Htr. induction 1 as [db|D T enc spr doc datum w x w' _ IH Hstep
                              |fl w w' _ IH Hstep|j w x w' _ IH Hstep|w _ IH].
  - apply queue_ok_new.
  - pose proof (Create_enqueue_keeps_queue enc spr doc datum w IH) as H.
    now rewrite Hstep in H.
  - pose proof (execute_keeps_queue tr fl w Htr IH) as H. now rewrite Hstep in H.
  - exact (Create_await_keeps_queue _ _ _ _ Hstep IH).
  - exact IH.
Qed.

(** On a reachable world the filter of [execute] keeps every job: the
    request is the batch, write for write. *)
Lemma reachable_collect tr w :
  reachable tr w ->
  collect (take 20 (backlogQueue (bw w))) = write <$> take 20 (backlogQueue (bw w)).
Proof.
  intros Hw. apply collect_all, Forall_take.
  eapply Forall_impl; [exact (reachable_attempts tr w Hw)|].
  intros j Hj. simpl in Hj. rewrite Hj. reflexivity.
Qed.

(** When [Flush] returns, the queue is empty. *)
Lemma Flush_loop_returns_empty tr fuel : forall w u w',
  Flush_loop tr fuel w = Returned u w' -> backlogQueue (bw w') = [].
Proof.
  induction fuel as [|fuel IH]; intros w u w'; simpl.
  - destruct (backlogQueue (bw w)) eqn:Hq; simpl; [|discriminate].
    intros H. inversion H; subst. exact Hq.
  - destruct (0 <? Z.of_nat (length (backlogQueue (bw w))))%Z eqn:Hpos.
    + unfold bind. destruct (execute tr true w) as [a w1|w1|w1|w1]; try discriminate.
      apply IH.
    + intros H. inversion H; subst.
      apply Z.ltb_ge in Hpos. destruct (backlogQueue (bw w')); [reflexivity|simpl in Hpos; lia].
Qed.

Lemma Flush_returns_empty tr fuel w u w' :
  Flush tr fuel w = Returned u w' -> backlogQueue (bw w') = [].
Proof.
  unfold Flush, bind.
  destruct (execute tr true w) as [a w1|w1|w1|w1]; try discriminate.
  apply Flush_loop_returns_empty.
Qed.

(** ** The counter of requests in flight *)

Lemma reqs_route b resp i rs :
  stable (fun w => reqs (bw w)) (route b resp i rs).
Proof. now apply (stable_route reqs). Qed.

(** A dispatch that returns leaves the counter where it found it. *)
Lemma execute_reqs tr fl w u w' :
  (0 <= reqs (bw w))%Z ->
  execute tr fl w = Returned u w' -> reqs (bw w') = reqs (bw w).
Proof.
  intros Hpos. unfold execute, bind.
  destruct (Z_lt_le_dec (reqs (bw w)) DEFAULT_STARTING_MAXIMUM_OPS_PER_SECOND)
    as [Hlt|Hge].
  2:{ rewrite execute_send_guard by exact Hge. intros H. now inversion H. }
  rewrite execute_send_eq by exact Hlt. cbv zeta.
  destruct (decide (collect _ = [])) as [Hc|Hc].
  { intros H. now inversion H. }
  unfold call_BatchWrite. cbn [sent set_bw].
  set (w2 := with_sent _ _).
  assert (Hw2 : reqs (bw w2) = (reqs (bw w) + 1)%Z).
  { simpl. apply wrap_int_small.
    unfold DEFAULT_STARTING_MAXIMUM_OPS_PER_SECOND in Hlt. lia. }
  destruct (tr (sent w) _) as [resp e]. unfold execute_recv, bind.
  pose proof (fun x => stable_fail_all (fun w => reqs (bw w))
                         (take 20 (backlogQueue (bw w))) x
                         (fun _ _ => eq_refl) (fun _ _ => eq_refl) w2) as Hfail.
  assert (H3 : reqs (bw (final
                  (match e with
                   | Some x => fail_all (take 20 (backlogQueue (bw w))) x
                   | None => ret tt
                   end w2))) = (reqs (bw w) + 1)%Z).
  { destruct e as [x|]; [rewrite Hfail|]; exact Hw2. }
  destruct (match e with
            | Some x => fail_all (take 20 (backlogQueue (bw w))) x
            | None => ret tt
            end w2) as [a w3|w3|w3|w3]; try discriminate.
  simpl in H3. unfold modify. destruct resp as [rp|]; [|discriminate].
  intros Hrun.
  pose proof (reqs_route (take 20 (backlogQueue (bw w))) rp 0 (WriteResults rp)
                (set_bw (fun c => with_reqs (wrap_int (reqs c - 1)) c) w3)) as Hroute.
  simpl in Hroute. rewrite Hrun in Hroute. simpl in Hroute. rewrite Hroute, H3.
  unfold DEFAULT_STARTING_MAXIMUM_OPS_PER_SECOND in Hlt.
  rewrite wrap_int_small by lia. lia.
Qed.

(** So does the loop of [Flush], and [Flush]. *)
Lemma Flush_loop_reqs tr fuel : forall w u w',
  (0 <= reqs (bw w))%Z ->
  Flush_loop tr fuel w = Returned u w' -> reqs (bw w') = reqs (bw w).
Proof.
  induction fuel as [|fuel IH]; intros w u w' Hpos; simpl.
  - destruct (_ <? _)%Z; [discriminate|]. intros H. now inversion H.
  - destruct (_ <? _)%Z; [|intros H; now inversion H].
    unfold bind. destruct (execute tr true w) as [a w1|w1|w1|w1] eqn:Hex;
      try discriminate.
    intros Hrun. pose proof (execute_reqs _ _ _ _ _ Hpos Hex) as H1.
    rewrite <- H1. apply (IH w1 u w'); [lia|exact Hrun].
Qed.

Lemma Flush_reqs tr fuel w u w' :
  (0 <= reqs (bw w))%Z ->
  Flush tr fuel w = Returned u w' -> reqs (bw w') = reqs (bw w).
Proof.
  intros Hpos. unfold Flush, bind.
  destruct (execute tr true w) as [a w1|w1|w1|w1] eqn:Hex; try discriminate.
  intros Hrun. pose proof (execute_reqs _ _ _ _ _ Hpos Hex) as H1.
  rewrite <- H1. apply (Flush_loop_reqs tr fuel w1 u w'); [lia|exact Hrun].
Qed.

(** Between the atomic steps of [reachable] no request is in flight. *)
Lemma reachable_reqs tr w : reachable tr w -> reqs (bw w) = 0%Z.
Proof.
  induction 1 as [db|D T enc spr doc datum w x w' _ IH Hstep
                  |fl w w' _ IH Hstep|j w x w' _ IH Hstep|w _ IH].
  - reflexivity.
  - revert Hstep. unfold Create_enqueue, bind, get.
    destruct (negb (isOpen (bw w))); [intros H; inversion H; subst; exact IH|].
    destruct doc as [d|]; [|intros H; inversion H; subst; exact IH].
    destruct (enc d datum) as [ws [e|]]; [intros H; inversion H; subst; exact IH|].
    unfold make_result, make_err, chan_make, index. cbn [errs with_results].
    destruct (ws !! 0) as [w0|]; [|discriminate].
    unfold ret, append_backlog, modify. intros H. inversion H. subst. exact IH.
  - rewrite (execute_reqs tr fl w tt w'); [exact IH|lia|exact Hstep].
  - now rewrite (Create_await_bw _ _ _ _ Hstep).
  - exact IH.
Qed.

(** ** A batch that the server answers item by item *)

(** One turn of the response loop on a code other than 0. *)
Lemma route_cons_rejected b resp i res rs s j w :
  Status resp !! i = Some s -> GetCode s <> 0%Z -> b !! i = Some j ->
  route b resp i (res :: rs) w
  = (append_backlog j ;;; route b resp (S i) rs) w.
Proof.
  intros Hsi Hs Hbi. simpl. unfold bind, index.
  rewrite Hsi. unfold ret. apply Z.eqb_neq in Hs. rewrite Hs, Hbi. reflexivity.
Qed.

(** The response loop from index [i] on, on jobs that are separate and
    unanswered, when there are no more results than jobs and statuses left:
    it returns; the jobs with a code other than 0 are behind the queue, in
    order, still unanswered; the jobs with code 0 have their result and a
    nil error; the jobs past the last result are left as they were. *)
Lemma route_answers b resp : forall rs i js ss w,
  drop i b = js -> drop i (Status resp) = ss ->
  length rs <= length js -> length rs <= length ss ->
  separate js -> Forall (pending w) js ->
  exists w',
    route b resp i rs w = Returned tt w' /\
    bw w' = with_backlogQueue (backlogQueue (bw w) ++ requeued js ss rs) (bw w) /\
    (forall k j s r, js !! k = Some j -> ss !! k = Some s -> rs !! k = Some r ->
       if (GetCode s =? 0)%Z then resolved w' j r None else pending w' j) /\
    (forall k j, js !! k = Some j -> length rs <= k -> pending w' j) /\
    only_touched js w w' /\ sent w' = sent w.
Proof.
  induction rs as [|res rs IH]; intros i js ss w Hjs Hss Hlj Hls Hsep Hpend.
  - exists w. split; [reflexivity|]. split.
    { destruct js, ss; simpl; rewrite app_nil_r; now destruct (bw w). }
    split; [intros k j s r _ _ Hr; discriminate Hr|].
    split.
    { intros k j Hk _. rewrite Forall_forall in Hpend. apply Hpend.
      eapply list_elem_of_lookup_2. exact Hk. }
    split; [split; auto|reflexivity].
  - destruct js as [|j js']; [simpl in Hlj; lia|].
    destruct ss as [|s ss']; [simpl in Hls; lia|].
    assert (Hbi : b !! i = Some j).
    { rewrite <- (Nat.add_0_r i), <- lookup_drop, Hjs. reflexivity. }
    assert (Hsi : Status resp !! i = Some s).
    { rewrite <- (Nat.add_0_r i), <- lookup_drop, Hss. reflexivity. }
    assert (Hjs' : drop (S i) b = js').
    { rewrite (drop_S _ _ _ Hbi) in Hjs. congruence. }
    assert (Hss' : drop (S i) (Status resp) = ss').
    { rewrite (drop_S _ _ _ Hsi) in Hss. congruence. }
    apply separate_cons in Hsep as (Hjr & Hje & Hsep).
    apply Forall_cons in Hpend as [Hj Hpend].
    simpl in Hlj, Hls.
    destruct (Z.eqb_spec (GetCode s) 0) as [Hs|Hs].
    + (* code 0: the job is answered *)
      destruct (resolve_job w j res None Hj) as (Hres & Htouch & Hbw & Hsent).
      set (w1 := with_errs _ _) in *.
      assert (Hpend1 : Forall (pending w1) js').
      { apply Forall_forall. intros j' Hj'. rewrite Forall_forall in Hpend.
        apply (pending_only_touched [j] w w1); auto.
        - simpl. intros Hin. apply list_elem_of_singleton in Hin.
          apply Hjr. rewrite <- Hin. now apply list_elem_of_fmap_2.
        - simpl. intros Hin. apply list_elem_of_singleton in Hin.
          apply Hje. rewrite <- Hin. now apply list_elem_of_fmap_2. }
      destruct (IH (S i) js' ss' w1 Hjs' Hss' ltac:(lia) ltac:(lia) Hsep Hpend1)
        as (w' & Hrun & Hbw' & Hpt & Htail & Htouch' & Hsent').
      exists w'. split; [|split; [|split; [|split; [|split]]]].
      * rewrite (route_cons_ok b resp i res rs s j w Hsi Hs Hbi).
        unfold bind. destruct Hj as [Hr He].
        rewrite (send_result_empty w _ res Hr).
        rewrite send_err_empty by exact He. exact Hrun.
      * rewrite Hbw', Hbw. simpl. apply Z.eqb_eq in Hs. now rewrite Hs.
      * intros [|k] j0 s0 r0 Hj0 Hs0 Hr0; simpl in Hj0, Hs0, Hr0.
        -- inversion Hj0; inversion Hs0; inversion Hr0; subst j0 s0 r0.
           apply Z.eqb_eq in Hs. rewrite Hs.
           apply (resolved_only_touched js' w1 w'); auto.
        -- exact (Hpt k j0 s0 r0 Hj0 Hs0 Hr0).
      * intros [|k] j0 Hj0 Hk; simpl in Hj0, Hk; [lia|].
        apply (Htail k j0 Hj0). lia.
      * apply (only_touched_trans [j] js' w w1 w'); assumption.
      * congruence.
    + (* another code: the job goes back to the queue *)
      set (w1 := set_bw (fun c => with_backlogQueue (backlogQueue c ++ [j]) c) w).
      assert (Hpend1 : Forall (pending w1) js') by exact Hpend.
      destruct (IH (S i) js' ss' w1 Hjs' Hss' ltac:(lia) ltac:(lia) Hsep Hpend1)
        as (w' & Hrun & Hbw' & Hpt & Htail & Htouch' & Hsent').
      assert (Hj' : pending w' j).
      { apply (pending_only_touched js' w1 w'); auto. }
      exists w'. split; [|split; [|split; [|split; [|split]]]].
      * rewrite (route_cons_rejected b resp i res rs s j w Hsi Hs Hbi).
        unfold bind, append_backlog, modify. exact Hrun.
      * rewrite Hbw'. simpl. apply Z.eqb_neq in Hs. rewrite Hs. simpl.
        now rewrite <- app_assoc.
      * intros [|k] j0 s0 r0 Hj0 Hs0 Hr0; simpl in Hj0, Hs0, Hr0.
        -- inversion Hj0; inversion Hs0; inversion Hr0; subst j0 s0 r0.
           apply Z.eqb_neq in Hs. rewrite Hs. exact Hj'.
        -- exact (Hpt k j0 s0 r0 Hj0 Hs0 Hr0).
      * intros [|k] j0 Hj0 Hk; simpl in Hj0, Hk; [lia|].
        apply (Htail k j0 Hj0). lia.
      * destruct Htouch' as [Hr' He']. split; intros c Hc.
        -- rewrite Hr'; [reflexivity|]. rewrite fmap_cons in Hc.
           now apply not_elem_of_cons in Hc.
        -- rewrite He'; [reflexivity|]. rewrite fmap_cons in Hc.
           now apply not_elem_of_cons in Hc.
      * exact Hsent'.
Qed.

Lemma requeued_lookup js : forall ss rs x,
  x ∈ requeued js ss rs -> exists k, k < length rs /\ js !! k = Some x.
Proof.
  induction js as [|j js IH]; intros ss rs x Hx.
  - destruct rs; simpl in Hx; inversion Hx.
  - destruct rs as [|r rs]; [inversion Hx|].
    destruct ss as [|s ss]; [inversion Hx|]. simpl in Hx.
    destruct (negb (GetCode s =? 0)%Z).
    + apply elem_of_cons in Hx as [->|Hx].
      * exists 0. split; [simpl; lia|reflexivity].
      * destruct (IH ss rs x Hx) as (k & Hk & Hjk).
        exists (S k). split; [simpl; lia|exact Hjk].
    + destruct (IH ss rs x Hx) as (k & Hk & Hjk).
      exists (S k). split; [simpl; lia|exact Hjk].
Qed.

Lemma queue_ok_batch w :
  queue_ok w ->
  separate (take 20 (backlogQueue (bw w))) /\
  Forall (pending w) (take 20 (backlogQueue (bw w))) /\
  (forall j, j ∈ take 20 (backlogQueue (bw w)) ->
             j ∉ drop 20 (backlogQueue (bw w))).
Proof.
  intros [Hsep Hpend]. pose proof Hsep as Hsep0.
  rewrite <- (take_drop 20 (backlogQueue (bw w))) in Hsep0.
  apply separate_app in Hsep0 as (Hsepb & _ & Hb_rest & _).
  split; [exact Hsepb|]. split; [now apply Forall_take|].
  intros j Hj Hin. destruct (Hb_rest j Hj) as [Hr _].
  apply Hr. now apply list_elem_of_fmap_2.
Qed.

(** One dispatch on a queue in order whose first batch has attempts left,
    when the call succeeds with no more results than jobs sent and than
    statuses. *)
Lemma execute_answered tr fl w resp :
  let q := backlogQueue (bw w) in
  let b := take 20 q in
  let req := {| Database := database (bw w); Writes := write <$> b |} in
  (0 <= reqs (bw w) < DEFAULT_STARTING_MAXIMUM_OPS_PER_SECOND)%Z ->
  q <> [] ->
  Forall (fun j => (attempts j < MAX_RETRY_ATTEMPTS)%Z) b ->
  queue_ok w ->
  tr (sent w) req = (Some resp, None) ->
  length (WriteResults resp) <= length b ->
  length (WriteResults resp) <= length (Status resp) ->
  exists w',
    execute tr fl w = Returned tt w' /\
    bw w' = with_backlogQueue
              (drop 20 q ++ requeued b (Status resp) (WriteResults resp)) (bw w) /\
    sent w' = sent w ++ [req] /\
    (forall k j s r,
       b !! k = Some j -> Status resp !! k = Some s ->
       WriteResults resp !! k = Some r ->
       if (GetCode s =? 0)%Z then resolved w' j r None else pending w' j) /\
    (forall k j, b !! k = Some j -> length (WriteResults resp) <= k -> pending w' j) /\
    only_touched b w w'.
Proof.
  intros q b req Hreqs Hq Hfresh Hok Hreply Hlb Hls.
  unfold DEFAULT_STARTING_MAXIMUM_OPS_PER_SECOND in Hreqs.
  destruct (queue_ok_batch w Hok) as (Hsep & Hpend & _). fold q b in Hsep, Hpend.
  pose proof (collect_all b Hfresh) as Hcol.
  assert (Hws : collect b <> []).
  { rewrite Hcol. subst b. destruct q; [congruence|discriminate]. }
  set (w2 := set_bw (fun c => with_reqs (wrap_int (reqs c - 1)) c)
               (with_sent (sent w ++ [req])
                  (set_bw (fun c => with_reqs (wrap_int (reqs c + 1)) c)
                     (set_bw (with_backlogQueue (drop 20 q)) w)))).
  destruct (route_answers b resp (WriteResults resp) 0 b (Status resp) w2)
    as (w' & Hrun & Hbw & Hpt & Htail & Htouch & Hsent);
    [reflexivity|reflexivity|exact Hlb|exact Hls|exact Hsep|exact Hpend|].
  exists w'. split; [|split; [|split; [|split; [|split]]]].
  - unfold execute, bind.
    rewrite execute_send_eq by (unfold DEFAULT_STARTING_MAXIMUM_OPS_PER_SECOND; lia).
    fold q b. cbv zeta. rewrite decide_False by exact Hws.
    unfold call_BatchWrite. cbn [sent set_bw]. rewrite Hcol. fold req.
    rewrite Hreply. unfold execute_recv, bind, ret, modify. exact Hrun.
  - rewrite Hbw. subst w2. cbn [bw set_bw with_sent backlogQueue with_backlogQueue
                                  with_reqs reqs database isOpen].
    rewrite (wrap_int_small (reqs (bw w) + 1)) by lia.
    rewrite wrap_int_small by lia.
    replace (reqs (bw w) + 1 - 1)%Z with (reqs (bw w)) by lia.
    unfold with_backlogQueue. reflexivity.
  - rewrite Hsent. reflexivity.
  - exact Hpt.
  - exact Htail.
  - exact Htouch.
Qed.

(** ** Results go to the job at their index *)

(** C3. A dispatch on a queue in order whose first batch has attempts left
    (as every job has that [Create] made), when the call succeeds with no
    more results than writes sent and than statuses.  The request holds the
    writes of the batch in order.  For every index whose status has code 0,
    the result at that index is sent, with a nil error, on the channels of
    the job whose write is the write of the request at that index, and of
    that job alone: the other jobs of the batch have other channels, the
    jobs whose status has another code and the jobs past the last result
    are sent nothing, and no channel outside the batch is touched. *)
Theorem response_routed_by_position (tr : transport) (fl : bool) (w : World)
    (resp : BatchWriteResponse) :
  let q := backlogQueue (bw w) in
  let b := take 20 q in
  let req := {| Database := database (bw w); Writes := collect b |} in
  (0 <= reqs (bw w) < DEFAULT_STARTING_MAXIMUM_OPS_PER_SECOND)%Z ->
  q <> [] ->
  Forall (fun j => (attempts j < MAX_RETRY_ATTEMPTS)%Z) b ->
  queue_ok w ->
  tr (sent w) req = (Some resp, None) ->
  length (WriteResults resp) <= length (Writes req) ->
  length (WriteResults resp) <= length (Status resp) ->
  exists w',
    execute tr fl w = Returned tt w' /\
    sent w' = sent w ++ [req] /\
    (forall i s r,
       Status resp !! i = Some s -> WriteResults resp !! i = Some r ->
       GetCode s = 0%Z ->
       exists j,
         b !! i = Some j /\ Writes req !! i = Some (write j) /\
         results w' !! result j = Some [r] /\
         errs w' !! err j = Some [None] /\
         forall k j', b !! k = Some j' -> k <> i ->
           result j' <> result j /\ err j' <> err j) /\
    (forall i s r j,
       b !! i = Some j -> Status resp !! i = Some s ->
       WriteResults resp !! i = Some r -> GetCode s <> 0%Z ->
       results w' !! result j = Some [] /\ errs w' !! err j = Some []) /\
    (forall i j,
       b !! i = Some j -> length (WriteResults resp) <= i ->
       results w' !! result j = Some [] /\ errs w' !! err j = Some []) /\
    only_touched b w w'.
Proof.
  intros q b req Hreqs Hq Hfresh Hok Hreply Hlr Hls.
  pose proof (collect_all b Hfresh) as Hcol.
  assert (Hreq : req = {| Database := database (bw w); Writes := write <$> b |}).
  { unfold req. now rewrite Hcol. }
  assert (Hlb : length (WriteResults resp) <= length b).
  { unfold req in Hlr. simpl in Hlr. rewrite Hcol, length_fmap in Hlr. exact Hlr. }
  rewrite Hreq in Hreply.
  destruct (execute_answered tr fl w resp Hreqs Hq Hfresh Hok Hreply Hlb Hls)
    as (w' & Hrun & _ & Hsent & Hpt & Htail & Htouch).
  fold q b in Hsent, Hpt, Htail, Htouch.
  destruct (queue_ok_batch w Hok) as ([Hndr Hnde] & _ & _). fold q b in Hndr, Hnde.
  exists w'. split; [exact Hrun|]. split; [now rewrite Hreq|].
  split; [|split; [|split; [|exact Htouch]]].
  - intros i s r Hs Hr Hcode.
    assert (Hi : i < length b).
    { apply lookup_lt_Some in Hr. lia. }
    destruct (lookup_lt_is_Some_2 b i Hi) as [j Hj].
    exists j. split; [exact Hj|]. split.
    { unfold req. simpl. rewrite Hcol, list_lookup_fmap, Hj. reflexivity. }
    pose proof (Hpt i j s r Hj Hs Hr) as Hres.
    apply Z.eqb_eq in Hcode. rewrite Hcode in Hres. destruct Hres as [H1 H2].
    split; [exact H1|]. split; [exact H2|].
    intros k j' Hj' Hki. split; intros Heq; apply Hki.
    + apply (NoDup_lookup (result <$> b) k i (result j)); [exact Hndr| |].
      * rewrite list_lookup_fmap, Hj'. simpl. now rewrite Heq.
      * rewrite list_lookup_fmap, Hj. reflexivity.
    + apply (NoDup_lookup (err <$> b) k i (err j)); [exact Hnde| |].
      * rewrite list_lookup_fmap, Hj'. simpl. now rewrite Heq.
      * rewrite list_lookup_fmap, Hj. reflexivity.
  - intros i s r j Hj Hs Hr Hcode.
    pose proof (Hpt i j s r Hj Hs Hr) as Hres.
    apply Z.eqb_neq in Hcode. rewrite Hcode in Hres. exact Hres.
  - intros i j Hj Hge. exact (Htail i j Hj Hge).
Qed.

Lemma response_routed_by_position_witness :
  let w := two_queued in
  let j7 := {| err := 0; result := 0; write := 7; attempts := 0 |} in
  let j8 := {| err := 1; result := 1; write := 8; attempts := 0 |} in
  backlogQueue (bw w) = [j7; j8] /\
  even_only (sent w) (request [7; 8])
  = (Some {| WriteResults := [Some 107; Some 108];
             Status := [Some {| Code := 14 |}; Some {| Code := 0 |}] |}, None) /\
  exists w',
    execute even_only false w = Returned tt w' /\
    sent w' = [request [7; 8]] /\
    results w' !! result j8 = Some [Some 108] /\
    errs w' !! err j8 = Some [None] /\
    results w' !! result j7 = Some [] /\
    errs w' !! err j7 = Some [].
Proof.
  split; [reflexivity|]. split; [reflexivity|].
  destruct (response_routed_by_position even_only false two_queued
              {| WriteResults := [Some 107; Some 108];
                 Status := [Some {| Code := 14 |}; Some {| Code := 0 |}] |})
    as (w' & Hrun & Hsent & Hok & Hno & _).
  - change (0 <= 0 < 500)%Z. lia.
  - discriminate.
  - repeat constructor.
  - split; [split; refine (bool_decide_unpack _ _); vm_compute; exact I|].
    repeat constructor.
  - reflexivity.
  - simpl. lia.
  - simpl. lia.
  - exists w'. split; [exact Hrun|]. split; [exact Hsent|].
    destruct (Hok 1 (Some {| Code := 0 |}) (Some 108) eq_refl eq_refl eq_refl)
      as (j & Hj & _ & Hr & He & _).
    inversion Hj; subst j. split; [exact Hr|]. split; [exact He|].
    apply (Hno 0 (Some {| Code := 14 |}) (Some 107) _ eq_refl eq_refl eq_refl).
    discriminate.
Defined.

(** ** The batch, job by job *)

Lemma requeued_elem js : forall ss rs k j s,
  js !! k = Some j -> ss !! k = Some s -> k < length rs ->
  GetCode s <> 0%Z -> j ∈ requeued js ss rs.
Proof.
  induction js as [|j0 js IH]; intros ss rs k j s Hj Hs Hk Hcode.
  - discriminate Hj.
  - destruct rs as [|r rs]; [simpl in Hk; lia|].
    destruct ss as [|s0 ss]; [discriminate Hs|]. simpl.
    destruct k as [|k]; simpl in Hj, Hs, Hk.
    + inversion Hj; inversion Hs; subst j0 s0.
      apply Z.eqb_neq in Hcode. rewrite Hcode. simpl. apply list_elem_of_here.
    + assert (Hin : j ∈ requeued js ss rs) by (apply (IH ss rs k j s); auto; lia).
      destruct (negb (GetCode s0 =? 0)%Z); [now apply list_elem_of_further|exact Hin].
Qed.

(** X1. A dispatch whose call succeeds with one result and one status per
    job sent, on a queue in order with attempts left: the dispatch returns;
    every job of the batch with code 0 has its result and a nil error on its
    channels; every job with another code is unanswered and back on the
    queue, behind the jobs that were not popped, in batch order; the
    counter is unchanged and the request went out once. *)
Theorem answered_batch_is_partitioned (tr : transport) (fl : bool) (w : World)
    (resp : BatchWriteResponse) :
  let q := backlogQueue (bw w) in
  let b := take 20 q in
  let req := {| Database := database (bw w); Writes := write <$> b |} in
  (0 <= reqs (bw w) < DEFAULT_STARTING_MAXIMUM_OPS_PER_SECOND)%Z ->
  q <> [] ->
  Forall (fun j => (attempts j < MAX_RETRY_ATTEMPTS)%Z) b ->
  queue_ok w ->
  tr (sent w) req = (Some resp, None) ->
  length (WriteResults resp) = length b ->
  length (Status resp) = length b ->
  exists w',
    execute tr fl w = Returned tt w' /\
    backlogQueue (bw w')
    = drop 20 q ++ requeued b (Status resp) (WriteResults resp) /\
    reqs (bw w') = reqs (bw w) /\
    sent w' = sent w ++ [req] /\
    (forall k j s r,
       b !! k = Some j -> Status resp !! k = Some s ->
       WriteResults resp !! k = Some r ->
       (GetCode s = 0%Z -> resolved w' j r None) /\
       (GetCode s <> 0%Z -> pending w' j /\ j ∈ backlogQueue (bw w'))).
Proof.
  intros q b req Hreqs Hq Hfresh Hok Hreply Hlr Hls.
  destruct (execute_answered tr fl w resp Hreqs Hq Hfresh Hok Hreply)
    as (w' & Hrun & Hbw & Hsent & Hpt & _ & _); fold q b; [lia|lia|].
  fold q b req in Hbw, Hsent, Hpt.
  exists w'. split; [exact Hrun|]. rewrite Hbw. simpl.
  split; [reflexivity|]. split; [reflexivity|]. split; [exact Hsent|].
  intros k j s r Hj Hs Hr. specialize (Hpt k j s r Hj Hs Hr). split.
  - intros Hc. apply Z.eqb_eq in Hc. now rewrite Hc in Hpt.
  - intros Hc. pose proof Hc as Hc'. apply Z.eqb_neq in Hc'. rewrite Hc' in Hpt.
    split; [exact Hpt|]. apply elem_of_app. right.
    apply (requeued_elem b (Status resp) (WriteResults resp) k j s); auto.
    apply lookup_lt_Some in Hr. exact Hr.
Qed.

Lemma answered_batch_is_partitioned_witness :
  let w := two_queued in
  let j7 := {| err := 0; result := 0; write := 7; attempts := 0 |} in
  let j8 := {| err := 1; result := 1; write := 8; attempts := 0 |} in
  backlogQueue (bw w) = [j7; j8] /\
  exists w',
    execute even_only false w = Returned tt w' /\
    backlogQueue (bw w') = [j7] /\
    resolved w' j8 (Some 108) None /\ pending w' j7.
Proof.
  split; [reflexivity|].
  destruct (answered_batch_is_partitioned even_only false two_queued
              {| WriteResults := [Some 107; Some 108];
                 Status := [Some {| Code := 14 |}; Some {| Code := 0 |}] |})
    as (w' & Hrun & Hq & _ & _ & Hpt).
  - change (0 <= 0 < 500)%Z. lia.
  - discriminate.
  - repeat constructor.
  - split; [split; refine (bool_decide_unpack _ _); vm_compute; exact I|].
    repeat constructor.
  - reflexivity.
  - reflexivity.
  - reflexivity.
  - exists w'. split; [exact Hrun|]. split; [exact Hq|]. split.
    + apply (Hpt 1 _ _ _ eq_refl eq_refl eq_refl). reflexivity.
    + apply (Hpt 0 _ _ _ eq_refl eq_refl eq_refl). discriminate.
Defined.

(** X2. A dispatch whose call succeeds with fewer results than jobs sent:
    the dispatch returns, and every job of the batch past the last result
    is neither answered nor put back on the queue. *)
Theorem short_response_loses_jobs (tr : transport) (fl : bool) (w : World)
    (resp : BatchWriteResponse) :
  let q := backlogQueue (bw w) in
  let b := take 20 q in
  let req := {| Database := database (bw w); Writes := write <$> b |} in
  (0 <= reqs (bw w) < DEFAULT_STARTING_MAXIMUM_OPS_PER_SECOND)%Z ->
  q <> [] ->
  Forall (fun j => (attempts j < MAX_RETRY_ATTEMPTS)%Z) b ->
  queue_ok w ->
  tr (sent w) req = (Some resp, None) ->
  length (WriteResults resp) <= length b ->
  length (WriteResults resp) <= length (Status resp) ->
  exists w',
    execute tr fl w = Returned tt w' /\
    forall k j, b !! k = Some j -> length (WriteResults resp) <= k ->
      pending w' j /\ j ∉ backlogQueue (bw w').
Proof.
  intros q b req Hreqs Hq Hfresh Hok Hreply Hlr Hls.
  destruct (execute_answered tr fl w resp Hreqs Hq Hfresh Hok Hreply Hlr Hls)
    as (w' & Hrun & Hbw & _ & _ & Htail & _).
  fold q b in Hbw, Htail.
  destruct (queue_ok_batch w Hok) as ([Hnd _] & _ & Hout). fold q b in Hnd, Hout.
  exists w'. split; [exact Hrun|]. intros k j Hj Hk.
  split; [exact (Htail k j Hj Hk)|].
  rewrite Hbw. simpl. intros Hin. apply elem_of_app in Hin as [Hin|Hin].
  - apply (Hout j); [|exact Hin]. eapply list_elem_of_lookup_2. exact Hj.
  - apply requeued_lookup in Hin as (k' & Hk' & Hj').
    assert (Heq : k = k').
    { apply (NoDup_lookup (result <$> b) k k' (result j)); [exact Hnd| |].
      - rewrite list_lookup_fmap, Hj. reflexivity.
      - rewrite list_lookup_fmap, Hj'. reflexivity. }
    lia.
Qed.

Lemma short_response_loses_jobs_witness :
  let w := two_queued in
  let j7 := {| err := 0; result := 0; write := 7; attempts := 0 |} in
  let j8 := {| err := 1; result := 1; write := 8; attempts := 0 |} in
  backlogQueue (bw w) = [j7; j8] /\
  exists w',
    execute mute false w = Returned tt w' /\
    (pending w' j7 /\ j7 ∉ backlogQueue (bw w')) /\
    (pending w' j8 /\ j8 ∉ backlogQueue (bw w')).
Proof.
  split; [reflexivity|].
  destruct (short_response_loses_jobs mute false two_queued
              {| WriteResults := []; Status := [] |})
    as (w' & Hrun & Hlost).
  - change (0 <= 0 < 500)%Z. lia.
  - discriminate.
  - repeat constructor.
  - split; [split; refine (bool_decide_unpack _ _); vm_compute; exact I|].
    repeat constructor.
  - reflexivity.
  - simpl. lia.
  - simpl. lia.
  - exists w'. split; [exact Hrun|]. split.
    + apply (Hlost 0); [reflexivity|simpl; lia].
    + apply (Hlost 1); [reflexivity|simpl; lia].
Defined.

(** ** Responses that are too long, and the guardrail *)

(** The response loop returns only if every result it visits has a status
    and a job at its index. *)
Lemma route_returned_bounds b resp : forall rs i w u w',
  route b resp i rs w = Returned u w' ->
  forall k, k < length rs ->
    is_Some (Status resp !! (i + k)) /\ is_Some (b !! (i + k)).
Proof.
  induction rs as [|res rs IH]; intros i w u w' Hrun k Hk; [simpl in Hk; lia|].
  simpl in Hrun. unfold bind at 1 in Hrun. unfold index at 1 in Hrun.
  destruct (Status resp !! i) as [s|] eqn:Hsi; [|discriminate Hrun].
  unfold ret at 1 in Hrun.
  assert (Hnext : is_Some (b !! i) /\
                  exists w1, route b resp (S i) rs w1 = Returned u w').
  { destruct (negb (GetCode s =? 0)%Z).
    - unfold bind at 1 in Hrun. unfold index at 1 in Hrun.
      destruct (b !! i) as [j|]; [|discriminate Hrun].
      split; [eauto|]. unfold ret at 1 in Hrun. unfold bind at 1 in Hrun.
      unfold append_backlog, modify in Hrun. eauto.
    - unfold bind at 1 in Hrun. unfold index at 1 in Hrun.
      destruct (b !! i) as [j|] eqn:Hbi; [|discriminate Hrun].
      split; [eauto|]. unfold ret at 1 in Hrun. unfold bind at 1 in Hrun.
      destruct (send_result (result j) res w) as [a w1|w1|w1|w1];
        try discriminate Hrun.
      unfold bind at 1 in Hrun. unfold index at 1 in Hrun. rewrite Hbi in Hrun.
      unfold ret at 1 in Hrun. unfold bind at 1 in Hrun.
      destruct (send_err (err j) None w1) as [a' w2|w2|w2|w2];
        try discriminate Hrun.
      eauto. }
  destruct Hnext as (Hb & w1 & Hrun1).
  destruct k as [|k].
  - rewrite Nat.add_0_r. split; [eauto|exact Hb].
  - replace (i + S k) with (S i + k) by lia.
    apply (IH (S i) w1 u w' Hrun1). simpl in Hk. lia.
Qed.

Lemma queue_ok_from_popped w w2 :
  queue_ok w ->
  backlogQueue (bw w2) = drop 20 (backlogQueue (bw w)) ->
  results w2 = results w -> errs w2 = errs w ->
  queue_ok_from (take 20 (backlogQueue (bw w))) 0 w2.
Proof.
  intros [[Hr He] Hpend] Hq Hres Herr. unfold queue_ok_from. cbn [drop].
  rewrite Hq. split.
  - rewrite <- (take_drop 20 (backlogQueue (bw w))) in Hr, He.
    split; rewrite fmap_app in *.
    + now rewrite (Permutation_app_comm (result <$> drop 20 _)).
    + now rewrite (Permutation_app_comm (err <$> drop 20 _)).
  - assert (Hp : Forall (pending w2) (backlogQueue (bw w))).
    { eapply Forall_impl; [exact Hpend|]. intros j [H1 H2].
      split; [now rewrite Hres | now rewrite Herr]. }
    apply Forall_app. split; [now apply Forall_drop | now apply Forall_take].
Qed.

(** X3. A dispatch on a queue in order whose call succeeds with more
    results than jobs in the batch, or than statuses, panics on an index
    out of range. *)
Theorem oversized_response_panics (tr : transport) (fl : bool) (w : World)
    (resp : BatchWriteResponse) :
  let b := take 20 (backlogQueue (bw w)) in
  let req := {| Database := database (bw w); Writes := collect b |} in
  (reqs (bw w) < DEFAULT_STARTING_MAXIMUM_OPS_PER_SECOND)%Z ->
  collect b <> [] ->
  queue_ok w ->
  tr (sent w) req = (Some resp, None) ->
  length b < length (WriteResults resp) \/
  length (Status resp) < length (WriteResults resp) ->
  exists w', execute tr fl w = Panicked w'.
Proof.
  intros b req Hreqs Hws Hok Hreply Hlong.
  unfold execute, bind. rewrite execute_send_eq by exact Hreqs.
  fold b. cbv zeta. rewrite decide_False by exact Hws.
  unfold call_BatchWrite. cbn [sent set_bw]. fold req. rewrite Hreply.
  unfold execute_recv, bind, ret, modify.
  set (w2 := set_bw _ (with_sent _ _)).
  assert (Hfrom : queue_ok_from b 0 w2) by (apply queue_ok_from_popped; auto).
  pose proof (route_keeps_queue b resp (WriteResults resp) 0 w2 Hfrom) as Hkeep.
  destruct (route b resp 0 (WriteResults resp) w2) as [u w'|w'|w'|w'] eqn:Hrun.
  - exfalso. pose proof (route_returned_bounds b resp _ _ _ _ _ Hrun) as Hb.
    destruct Hlong as [Hlong|Hlong].
    + destruct (Hb (length b) Hlong) as [_ [j Hj]].
      apply lookup_lt_Some in Hj. simpl in Hj. lia.
    + destruct (Hb (length (Status resp)) Hlong) as [[s Hs] _].
      apply lookup_lt_Some in Hs. simpl in Hs. lia.
  - eauto.
  - destruct Hkeep.
  - destruct Hkeep.
Qed.

Lemma oversized_response_panics_witness :
  backlogQueue (bw one_queued) = [job7] /\
  verbose [] (request [7])
  = (Some {| WriteResults := [Some 100; Some 107];
             Status := [Some {| Code := 0 |}; Some {| Code := 0 |}] |}, None) /\
  exists w', execute verbose false one_queued = Panicked w'.
Proof.
  split; [reflexivity|]. split; [reflexivity|].
  apply (oversized_response_panics verbose false one_queued
           {| WriteResults := [Some 100; Some 107];
              Status := [Some {| Code := 0 |}; Some {| Code := 0 |}] |}).
  - change (0 < 500)%Z. lia.
  - discriminate.
  - split; [split; refine (bool_decide_unpack _ _); vm_compute; exact I|].
    repeat constructor.
  - reflexivity.
  - left. simpl. lia.
Defined.

(** X4. While [reqs] is at the guardrail or above, a dispatch does
    nothing: it returns in the world it was called in.  [Flush] then
    returns at once if the queue is empty and otherwise loops for as long
    as it is let, the world never changing. *)
Theorem guardrail_stalls_dispatch (tr : transport) (fl : bool) (fuel : nat)
    (w : World) :
  (DEFAULT_STARTING_MAXIMUM_OPS_PER_SECOND <= reqs (bw w))%Z ->
  execute tr fl w = Returned tt w /\
  (backlogQueue (bw w) = [] -> Flush tr fuel w = Returned tt w) /\
  (backlogQueue (bw w) <> [] -> Flush tr fuel w = Running w).
Proof.
  intros Hge.
  assert (Hex : forall fl', execute tr fl' w = Returned tt w).
  { intros fl'. unfold execute, bind. now rewrite execute_send_guard. }
  split; [apply Hex|]. unfold Flush, bind. rewrite Hex. split.
  - intros Hq. destruct fuel; simpl; now rewrite Hq.
  - intros Hq.
    assert (Hpos : (0 <? Z.of_nat (length (backlogQueue (bw w))))%Z = true).
    { apply Z.ltb_lt. destruct (backlogQueue (bw w)); [congruence|simpl; lia]. }
    induction fuel as [|fuel IH]; simpl; rewrite Hpos; [reflexivity|].
    unfold bind. rewrite Hex. exact IH.
Qed.

Lemma guardrail_stalls_dispatch_witness :
  reqs (bw saturated) = 500%Z /\
  backlogQueue (bw saturated) = [job7] /\
  execute accepting false saturated = Returned tt saturated /\
  (backlogQueue (bw saturated) = [] -> Flush accepting 3 saturated = Returned tt saturated) /\
  (backlogQueue (bw saturated) <> [] -> Flush accepting 3 saturated = Running saturated).
Proof.
  split; [reflexivity|]. split; [reflexivity|].
  apply (guardrail_stalls_dispatch accepting false 3 saturated).
  change (500 <= 500)%Z. lia.
Defined.

(** ** What a dispatch and a run never do *)

Lemma reachable_one_queued tr : reachable tr one_queued.
Proof.
  apply (reach_enqueue tr one_write show_unit (Some 7) tt fresh_writer (inr job7)).
  - apply reach_new.
  - reflexivity.
Qed.

(** X5. A dispatch that runs with no other step overlapping it, from a
    world whose queued jobs are unanswered and on channels of their own and
    with a one-sided transport, never parks on a channel send: it either
    returns, with the queued jobs again unanswered and on channels of their
    own, or panics. *)
Theorem dispatch_never_blocks (tr : transport) (fl : bool) (w : World) :
  one_sided tr -> queue_ok w ->
  (exists w', execute tr fl w = Returned tt w' /\ queue_ok w') \/
  (exists w', execute tr fl w = Panicked w').
Proof.
  intros Htr Hw.
  pose proof (execute_keeps_queue tr fl w Htr Hw) as H.
  destruct (execute tr fl w) as [[] w'|w'|w'|w']; simpl in H.
  - left. eauto.
  - right. eauto.
  - destruct H.
  - destruct H.
Qed.

Lemma dispatch_never_blocks_witness :
  backlogQueue (bw two_queued)
  = [ {| err := 0; result := 0; write := 7; attempts := 0 |};
      {| err := 1; result := 1; write := 8; attempts := 0 |} ] /\
  ((exists w', execute even_only false two_queued = Returned tt w' /\ queue_ok w') \/
   (exists w', execute even_only false two_queued = Panicked w')).
Proof.
  split; [reflexivity|].
  apply (dispatch_never_blocks even_only false two_queued).
  - intros hist req resp e H. discriminate H.
  - split; [split; refine (bool_decide_unpack _ _); vm_compute; exact I|].
    repeat constructor.
Defined.

(** X6. No step of a run writes [attempts]: on every reachable world every
    queued job has the count 0 that [Create] gave it, so the filter of
    [execute] keeps every job and the request of the next dispatch is the
    writes of the whole batch, in order. *)
Theorem attempts_never_counted (tr : transport) (w : World) :
  reachable tr w ->
  Forall (fun j => attempts j = 0%Z) (backlogQueue (bw w)) /\
  collect (take 20 (backlogQueue (bw w)))
  = write <$> take 20 (backlogQueue (bw w)).
Proof.
  intros Hw. split; [exact (reachable_attempts tr w Hw)|].
  exact (reachable_collect tr w Hw).
Qed.

Lemma attempts_never_counted_witness :
  let w := final (execute rejecting false one_queued) in
  backlogQueue (bw w) = [job7] /\
  Forall (fun j => attempts j = 0%Z) (backlogQueue (bw w)) /\
  collect (take 20 (backlogQueue (bw w)))
  = write <$> take 20 (backlogQueue (bw w)).
Proof.
  split; [reflexivity|].
  apply (attempts_never_counted rejecting).
  apply (reach_execute rejecting false one_queued
           (with_sent [request [7]] one_queued)).
  - apply reachable_one_queued.
  - reflexivity.
Defined.

(** ** [isOpen], and what [Flush] and [Close] leave behind *)

Lemma isOpen_Create_enqueue {DocumentRef Datum : Type}
    (enc : DocumentRef -> Datum -> list Write * option error)
    (spr : Datum -> string) doc datum :
  stable (fun w => isOpen (bw w)) (Create_enqueue enc spr doc datum).
Proof.
  unfold Create_enqueue. apply stable_bind; [apply stable_get|intros w0].
  destruct (negb _); [apply stable_ret|].
  destruct doc as [d|]; [|apply stable_ret].
  destruct (enc d datum) as [ws [e|]]; [apply stable_ret|].
  apply stable_bind; [intros w; reflexivity|intros r].
  apply stable_bind; [intros w; reflexivity|intros e].
  apply stable_bind; [apply stable_index|intros x].
  apply stable_bind; [intros w; reflexivity|intros _]. apply stable_ret.
Qed.

Lemma isOpen_Create_await j : stable (fun w => isOpen (bw w)) (Create_await j).
Proof.
  unfold Create_await.
  apply stable_bind.
  { intros w. unfold recv_result. now destruct (chan_recv _ _) as [[v h]|]. }
  intros r. apply stable_bind.
  { intros w. unfold recv_err. now destruct (chan_recv _ _) as [[v h]|]. }
  intros e. apply stable_ret.
Qed.

(** X7. [isOpen] is written by [Close] alone: a dispatch, a [Flush] and a
    [Create] leave it as it was however they end, and however [Close] ends
    it is false.  A closed writer is never opened again. *)
Theorem only_Close_writes_isOpen (tr : transport) (fl : bool) (fuel : nat)
    {DocumentRef Datum : Type}
    (enc : DocumentRef -> Datum -> list Write * option error)
    (spr : Datum -> string) (doc : option DocumentRef) (datum : Datum)
    (w : World) :
  isOpen (bw (final (execute tr fl w))) = isOpen (bw w) /\
  isOpen (bw (final (Flush tr fuel w))) = isOpen (bw w) /\
  isOpen (bw (final (Create tr enc spr doc datum w))) = isOpen (bw w) /\
  isOpen (bw (final (Close tr fuel w))) = false.
Proof.
  split; [apply isOpen_execute|]. split; [apply isOpen_Flush|].
  split; [|apply Close_closes].
  apply (stable_bind (fun w => isOpen (bw w))); [apply isOpen_Create_enqueue|].
  intros [early|j]; [apply stable_ret|].
  apply stable_bind; [apply isOpen_execute|intros _]. apply isOpen_Create_await.
Qed.

(** X8. When [Flush] returns, the queue is empty, and [reqs] and [isOpen]
    are what they were when it was called. *)
Theorem Flush_leaves_queue_empty (tr : transport) (fuel : nat) (w w' : World) :
  (0 <= reqs (bw w))%Z ->
  Flush tr fuel w = Returned tt w' ->
  backlogQueue (bw w') = [] /\
  reqs (bw w') = reqs (bw w) /\
  isOpen (bw w') = isOpen (bw w).
Proof.
  intros Hpos Hrun. split; [exact (Flush_returns_empty _ _ _ _ _ Hrun)|].
  split; [exact (Flush_reqs _ _ _ _ _ Hpos Hrun)|].
  pose proof (isOpen_Flush tr fuel w) as H. now rewrite Hrun in H.
Qed.

Lemma Flush_leaves_queue_empty_witness :
  let w := twenty_five_queued in
  let w' := final (Flush accepting 1 w) in
  length (backlogQueue (bw w)) = 25 /\
  backlogQueue (bw w') = [] /\
  reqs (bw w') = reqs (bw w) /\
  isOpen (bw w') = isOpen (bw w).
Proof.
  split; [vm_compute; reflexivity|].
  apply (Flush_leaves_queue_empty accepting 1 twenty_five_queued).
  - change (0 <= 0)%Z. lia.
  - vm_compute. reflexivity.
Defined.

(** X9. When [Close] returns, the writer is closed, the queue is empty and
    [reqs] is what it was when [Close] was called. *)
Theorem Close_leaves_writer_drained (tr : transport) (fuel : nat) (w w' : World) :
  (0 <= reqs (bw w))%Z ->
  Close tr fuel w = Returned tt w' ->
  isOpen (bw w') = false /\
  backlogQueue (bw w') = [] /\
  reqs (bw w') = reqs (bw w).
Proof.
  intros Hpos Hrun. split.
  - pose proof (Close_closes tr fuel w) as H. now rewrite Hrun in H.
  - unfold Close, bind, modify in Hrun.
    split; [exact (Flush_returns_empty _ _ _ _ _ Hrun)|].
    exact (Flush_reqs tr fuel (set_bw (with_isOpen false) w) tt w' Hpos Hrun).
Qed.

Lemma Close_leaves_writer_drained_witness :
  let w := twenty_five_queued in
  let w' := final (Close accepting 1 w) in
  isOpen (bw w) = true /\
  isOpen (bw w') = false /\
  backlogQueue (bw w') = [] /\
  reqs (bw w') = reqs (bw w).
Proof.
  split; [reflexivity|].
  apply (Close_leaves_writer_drained accepting 1 twenty_five_queued).
  - change (0 <= 0)%Z. lia.
  - vm_compute. reflexivity.
Defined.

(** ** [Create], from the encoder to the result *)

(** X10. On an open writer, when the encoder fails, [Create] returns at
    once a nil result and an error that names the data, in the world it was
    called in: no channel is made, nothing is queued, no dispatch runs. *)
Theorem Create_encoder_error (tr : transport) {DocumentRef Datum : Type}
    (enc : DocumentRef -> Datum -> list Write * option error)
    (spr : Datum -> string) (d : DocumentRef) (datum : Datum)
    (ws : list Write) (e : error) (w : World) :
  isOpen (bw w) = true ->
  enc d datum = (ws, Some e) ->
  Create tr enc spr (Some d) datum w
  = Returned (None, Some ("firestore: cannot create document with "
                            +:+ spr datum)) w.
Proof.
  intros Ho He. unfold Create, Create_enqueue, bind, get, ret.
  now rewrite Ho, He.
Qed.

Lemma Create_encoder_error_witness :
  Create accepting no_write show_unit (Some 7) tt fresh_writer
  = Returned (None, Some "firestore: cannot create document with {}"%string)
             fresh_writer.
Proof.
  apply (Create_encoder_error accepting no_write show_unit 7 tt []
           "firestore: bad data"%string fresh_writer); reflexivity.
Defined.

(** The enqueuing part of [Create] when nothing stops it: two new, empty
    channels and one more job behind the queue. *)
Lemma Create_enqueue_eq {DocumentRef Datum : Type}
    (enc : DocumentRef -> Datum -> list Write * option error)
    (spr : Datum -> string) (d : DocumentRef) (datum : Datum)
    (w0 : Write) (ws : list Write) (w : World) :
  isOpen (bw w) = true ->
  enc d datum = (w0 :: ws, None) ->
  let j := {| err := length (errs w); result := length (results w);
              write := w0; attempts := 0 |} in
  Create_enqueue enc spr (Some d) datum w
  = Returned (inr j)
      (set_bw (fun c => with_backlogQueue (backlogQueue c ++ [j]) c)
         (with_errs (errs w ++ [[]]) (with_results (results w ++ [[]]) w))).
Proof.
  intros Ho He. unfold Create_enqueue, bind, get. now rewrite Ho, He.
Qed.

Lemma chan_recv_full {A} (h : list (list A)) c v :
  h !! c = Some [v] -> chan_recv h c = Some (v, <[c := []]> h).
Proof. intros H. unfold chan_recv. now rewrite H. Qed.

(** X11. On an open writer whose queue is in order and holds fewer than
    [MAX_BATCH_SIZE] jobs with attempts left, with [reqs] below the
    guardrail and a transport that applies every write, [Create] of a
    document that the encoder accepts returns a result and a nil error.
    Its dispatch sent, in one request, the writes that were queued followed
    by its own; the queue is empty afterwards, [reqs] is unchanged, and
    every job that was queued has a result and a nil error on its
    channels. *)
Theorem Create_applied (tr : transport) {DocumentRef Datum : Type}
    (enc : DocumentRef -> Datum -> list Write * option error)
    (spr : Datum -> string) (d : DocumentRef) (datum : Datum)
    (w0 : Write) (ws : list Write) (w : World) :
  let q := backlogQueue (bw w) in
  applies_all tr ->
  isOpen (bw w) = true ->
  enc d datum = (w0 :: ws, None) ->
  (0 <= reqs (bw w) < DEFAULT_STARTING_MAXIMUM_OPS_PER_SECOND)%Z ->
  queue_ok w ->
  Forall (fun j => (attempts j < MAX_RETRY_ATTEMPTS)%Z) q ->
  length q < 20 ->
  exists r w',
    Create tr enc spr (Some d) datum w = Returned (Some r, None) w' /\
    backlogQueue (bw w') = [] /\
    reqs (bw w') = reqs (bw w) /\
    sent w' = sent w ++ [ {| Database := database (bw w);
                             Writes := (write <$> q) ++ [w0] |} ] /\
    Forall (fun j => exists x, resolved w' j (Some x) None) q.
Proof.
  intros q Htr Ho He Hreqs Hok Hfresh Hlen.
  pose proof (Create_enqueue_keeps_queue enc spr (Some d) datum w Hok) as Hok1.
  pose proof (Create_enqueue_eq enc spr d datum w0 ws w Ho He) as Henq.
  cbv zeta in Henq. rewrite Henq in Hok1. simpl in Hok1.
  set (j := {| err := length (errs w); result := length (results w);
               write := w0; attempts := 0 |}) in *.
  set (w1 := set_bw _ _) in *.
  assert (Hq1 : backlogQueue (bw w1) = q ++ [j]) by reflexivity.
  assert (Htake : take 20 (q ++ [j]) = q ++ [j]).
  { apply take_ge. rewrite length_app. simpl. lia. }
  assert (Hdrop : drop 20 (q ++ [j]) = []).
  { apply drop_ge. rewrite length_app. simpl. lia. }
  destruct (queue_ok_batch w1 Hok1) as (Hsep1 & Hpend1 & _).
  rewrite Hq1, Htake in Hsep1, Hpend1.
  destruct (execute_applied tr false w1 Htr) as
    (w2 & Hrun & Hq2 & Hsent2 & Hreqs2 & Hres2 & _).
  { exact Hreqs. }
  { rewrite Hq1. now destruct q. }
  { rewrite Hq1, Htake. apply Forall_app. split; [exact Hfresh|].
    constructor; [reflexivity|constructor]. }
  { rewrite Hq1, Htake. exact Hsep1. }
  { rewrite Hq1, Htake. exact Hpend1. }
  rewrite Hq1 in Hq2, Hsent2, Hres2.
  rewrite Hdrop in Hq2. rewrite Htake in Hsent2, Hres2.
  apply Forall_app in Hres2 as [Hresq Hresj].
  apply Forall_cons in Hresj as [[r [Hjr Hje]] _].
  apply separate_middle in Hsep1 as (Hjr' & Hje' & _).
  rewrite app_nil_r in Hjr', Hje'.
  exists r.
  exists (with_errs (<[err j := []]> (errs w2))
            (with_results (<[result j := []]> (results w2)) w2)).
  split; [|split; [|split; [|split]]].
  - unfold Create, bind. rewrite Henq, Hrun.
    unfold Create_await, bind, recv_result, recv_err.
    rewrite (chan_recv_full _ _ _ Hjr). cbn [errs with_results].
    rewrite (chan_recv_full _ _ _ Hje). reflexivity.
  - exact Hq2.
  - exact Hreqs2.
  - simpl. rewrite Hsent2. simpl. rewrite fmap_app. reflexivity.
  - apply Forall_forall. intros j' Hj'. rewrite Forall_forall in Hresq.
    destruct (Hresq j' Hj') as [x [H1 H2]]. exists x. split; simpl.
    + rewrite list_lookup_insert_ne; [exact H1|].
      intros Heq. apply Hjr'. apply list_elem_of_fmap.
      exists j'. split; [exact Heq|exact Hj'].
    + rewrite list_lookup_insert_ne; [exact H2|].
      intros Heq. apply Hje'. apply list_elem_of_fmap.
      exists j'. split; [exact Heq|exact Hj'].
Qed.

Lemma Create_applied_witness :
  backlogQueue (bw one_queued) = [job7] /\
  exists r w',
    Create accepting one_write show_unit (Some 8) tt one_queued
    = Returned (Some r, None) w' /\
    backlogQueue (bw w') = [] /\
    reqs (bw w') = reqs (bw one_queued) /\
    sent w' = sent one_queued
              ++ [ {| Database := database (bw one_queued);
                      Writes := (write <$> backlogQueue (bw one_queued)) ++ [8] |} ] /\
    Forall (fun j => exists x, resolved w' j (Some x) None)
           (backlogQueue (bw one_queued)).
Proof.
  split; [reflexivity|].
  apply (Create_applied accepting one_write show_unit 8 tt 8 [] one_queued).
  - exact accepting_applies_all.
  - reflexivity.
  - reflexivity.
  - change (0 <= 0 < 500)%Z. lia.
  - split; [split; refine (bool_decide_unpack _ _); vm_compute; exact I|].
    repeat constructor.
  - repeat constructor.
  - simpl. lia.
Defined.

(** ** The requests that go out *)

Lemma collect_length b : length (collect b) <= length b.
Proof.
  induction b as [|j b IH]; simpl; [lia|].
  destruct (attempts j <? MAX_RETRY_ATTEMPTS)%Z; simpl; lia.
Qed.

Lemma sent_route b resp i rs : stable sent (route b resp i rs).
Proof.
  revert i. induction rs as [|res rs IH]; intros i; simpl.
  - apply stable_ret.
  - apply stable_bind; [apply stable_index|intros s].
    destruct (negb _).
    + apply stable_bind; [apply stable_index|intros j].
      apply stable_bind; [intros w; reflexivity|intros _]. apply IH.
    + apply stable_bind; [apply stable_index|intros j].
      apply stable_bind; [now apply stable_send_result|intros _].
      apply stable_bind; [apply stable_index|intros j'].
      apply stable_bind; [now apply stable_send_err|intros _]. apply IH.
Qed.

Lemma sent_execute_recv b r : stable sent (execute_recv b r).
Proof.
  destruct r as [resp e]. unfold execute_recv.
  apply stable_bind.
  - destruct e; [now apply stable_fail_all | apply stable_ret].
  - intros _. apply stable_bind; [intros w; reflexivity|intros _].
    destruct resp; [apply sent_route | apply stable_panic].
Qed.

Lemma database_execute tr fl : stable (fun w => database (bw w)) (execute tr fl).
Proof.
  unfold execute. apply stable_bind.
  - unfold execute_send. apply stable_bind; [apply stable_get|intros w0].
    destruct (_ <=? _)%Z; [apply stable_ret|].
    apply stable_bind.
    + intros w. unfold makeBatch. destruct (_ <? _)%Z; reflexivity.
    + intros b. destruct (_ =? _)%Z; [apply stable_ret|].
      apply stable_bind; [intros w; reflexivity|intros _; apply stable_ret].
  - intros [[b bwr]|]; [|apply stable_ret].
    apply stable_bind; [intros w; reflexivity|intros [resp e]].
    unfold execute_recv. apply stable_bind.
    + destruct e; [now apply stable_fail_all | apply stable_ret].
    + intros _. apply stable_bind; [intros w; reflexivity|intros _].
      destruct resp; [now apply (stable_route database) | apply stable_panic].
Qed.

(** However a dispatch ends, it has handed the transport nothing, or one
    request for the database of the writer with one to twenty writes. *)
Lemma execute_log tr fl w :
  sent (final (execute tr fl w)) = sent w \/
  exists ws,
    sent (final (execute tr fl w))
    = sent w ++ [ {| Database := database (bw w); Writes := ws |} ] /\
    1 <= length ws <= 20.
Proof.
  unfold execute, bind.
  destruct (Z_lt_le_dec (reqs (bw w)) DEFAULT_STARTING_MAXIMUM_OPS_PER_SECOND)
    as [Hlt|Hge].
  2:{ rewrite execute_send_guard by exact Hge. now left. }
  rewrite execute_send_eq by exact Hlt. cbv zeta.
  set (b := take 20 (backlogQueue (bw w))).
  destruct (decide (collect b = [])) as [Hc|Hc]; [now left|].
  right. exists (collect b). split.
  - unfold call_BatchWrite. cbn [sent set_bw].
    rewrite (sent_execute_recv b). reflexivity.
  - pose proof (collect_length b) as Hl.
    assert (length b <= 20) by (unfold b; rewrite length_take; lia).
    destruct (collect b); [congruence|simpl in *; lia].
Qed.

Lemma Create_enqueue_frame {DocumentRef Datum : Type}
    (enc : DocumentRef -> Datum -> list Write * option error)
    (spr : Datum -> string) doc datum w x w' :
  Create_enqueue enc spr doc datum w = Returned x w' ->
  sent w' = sent w /\ database (bw w') = database (bw w).
Proof.
  unfold Create_enqueue, bind, get.
  destruct (negb (isOpen (bw w))); [intros H; inversion H; subst; auto|].
  destruct doc as [d|]; [|intros H; inversion H; subst; auto].
  destruct (enc d datum) as [ws [e|]]; [intros H; inversion H; subst; auto|].
  unfold make_result, make_err, chan_make, index. cbn [errs with_results].
  destruct (ws !! 0) as [w0|]; [|discriminate].
  unfold ret, append_backlog, modify. intros H. inversion H. subst. auto.
Qed.

Lemma Create_await_sent j w x w' :
  Create_await j w = Returned x w' -> sent w' = sent w.
Proof.
  unfold Create_await, bind, recv_result, recv_err.
  destruct (chan_recv (results w) (result j)) as [[v h]|]; [|discriminate].
  cbn [errs with_results].
  destruct (chan_recv (errs w) (err j)) as [[v' h']|]; [|discriminate].
  intros H. inversion H. reflexivity.
Qed.

(** X12. Every request that a writer has handed to the transport names
    the database of the writer and holds at least one write and at most
    [MAX_BATCH_SIZE]: no empty request and no oversized one ever goes
    out. *)
Theorem requests_are_bounded (tr : transport) (w : World) :
  reachable tr w ->
  Forall (fun r => Database r = database (bw w) /\
                   1 <= length (Writes r) <= Z.to_nat MAX_BATCH_SIZE)
         (sent w).
Proof.
  induction 1 as [db|D T enc spr doc datum w x w' _ IH Hstep
                  |fl w w' _ IH Hstep|j w x w' _ IH Hstep|w _ IH].
  - constructor.
  - destruct (Create_enqueue_frame _ _ _ _ _ _ _ Hstep) as [Hs Hd].
    now rewrite Hs, Hd.
  - pose proof (database_execute tr fl w) as Hd.
    pose proof (execute_log tr fl w) as Hl.
    rewrite Hstep in Hd, Hl. simpl in Hd, Hl. rewrite Hd.
    destruct Hl as [Hl|(ws & Hl & Hlen)]; rewrite Hl; [exact IH|].
    apply Forall_app. split; [exact IH|].
    constructor; [|constructor]. split; [reflexivity|exact Hlen].
  - rewrite (Create_await_sent _ _ _ _ Hstep), (Create_await_bw _ _ _ _ Hstep).
    exact IH.
  - exact IH.
Qed.

Lemma requests_are_bounded_witness :
  let w := final (execute accepting false twenty_five_queued) in
  sent w = [request (seq 0 20)] /\
  Forall (fun r => Database r = database (bw w) /\
                   1 <= length (Writes r) <= Z.to_nat MAX_BATCH_SIZE)
         (sent w).
Proof.
  split; [vm_compute; reflexivity|].
  apply (requests_are_bounded accepting).
  apply (reach_execute accepting false twenty_five_queued).
  - assert (H : forall docs w,
               reachable accepting w ->
               reachable accepting (final (queue_docs docs w))).
    { induction docs as [|d docs IH]; intros w Hw; [exact Hw|].
      simpl. unfold bind.
      destruct (Create_enqueue one_write show_unit (Some d) tt w)
        as [x w1|w1|w1|w1] eqn:Hq.
      - apply IH. exact (reach_enqueue accepting _ _ _ _ _ _ _ Hw Hq).
      - revert Hq. unfold Create_enqueue, bind, get.
        destruct (negb _); discriminate.
      - revert Hq. unfold Create_enqueue, bind, get.
        destruct (negb _); discriminate.
      - revert Hq. unfold Create_enqueue, bind, get.
        destruct (negb _); discriminate. }
    apply H. apply reach_new.
  - vm_compute. reflexivity.
Defined.

(** X13. [makeBatch] always returns: the batch is the head of the queue,
    of [MAX_BATCH_SIZE] jobs or the whole queue if it is shorter, the queue
    keeps the rest in order, and nothing else of the world changes. *)
Theorem makeBatch_pops_head (w : World) :
  exists b rest,
    makeBatch w = Returned b (set_bw (with_backlogQueue rest) w) /\
    b ++ rest = backlogQueue (bw w) /\
    length b = length (backlogQueue (bw w)) `min` Z.to_nat MAX_BATCH_SIZE.
Proof.
  exists (take 20 (backlogQueue (bw w))), (drop 20 (backlogQueue (bw w))).
  split; [apply makeBatch_eq|]. split; [apply take_drop|].
  rewrite length_take. change (Z.to_nat MAX_BATCH_SIZE) with 20. lia.
Qed.

(** * Facts about the table validator *)

Section ManagedWriterFacts.

Import ManagedWriter.

Lemma column_offset_ge schema colname : forall k off,
  column_offset schema colname k = Some off -> k <= off.
Proof.
  induction schema as [|v schema IH]; intros k off H; simpl in H; [discriminate|].
  destruct (decide (v = colname)).
  - inversion H. lia.
  - apply IH in H. lia.
Qed.

(** X14. [column_offset] finds the first field of the schema with the name
    asked for: it answers [off] exactly when the field at [off] has that
    name and no field before it has. *)
Theorem column_offset_first (schema : list string) (colname : string) (off : nat) :
  column_offset schema colname 0 = Some off <->
  schema !! off = Some colname /\
  forall k, k < off -> schema !! k <> Some colname.
Proof.
  assert (G : forall schema k off,
            column_offset schema colname k = Some off <->
            exists i, off = k + i /\ schema !! i = Some colname /\
                      forall i', i' < i -> schema !! i' <> Some colname).
  { clear. induction schema as [|v schema IH]; intros k off; simpl.
    - split; [discriminate|]. intros (i & _ & Hi & _). discriminate Hi.
    - destruct (decide (v = colname)) as [->|Hne].
      + split.
        * intros H. inversion H. exists 0. repeat split; [lia|]. intros i' Hi'. lia.
        * intros (i & -> & Hi & Hfirst). destruct i as [|i]; [f_equal; lia|].
          exfalso. apply (Hfirst 0); [lia|reflexivity].
      + rewrite IH. split.
        * intros (i & -> & Hi & Hfirst). exists (S i). repeat split; [lia|exact Hi|].
          intros [|i'] Hi'; simpl; [congruence|]. apply Hfirst. lia.
        * intros (i & -> & Hi & Hfirst). destruct i as [|i]; simpl in Hi; [congruence|].
          exists i. repeat split; [lia|exact Hi|].
          intros i' Hi'. apply (Hfirst (S i')). lia. }
  rewrite G. split.
  - intros (i & -> & Hi & Hfirst). auto.
  - intros [Hi Hfirst]. exists off. auto.
Qed.

(** X15. For a column of the row that holds an [int64], when the
    difference between the value and the expected one fits an [int64]: the
    check reports nothing exactly when, with no allowed error, the value is
    the expected one and, with an allowed error, the distance between the
    two is at most that error. *)
Theorem check_accepts_iff (schema : list string) (resultrow : list Value)
    (colname : string) (con : constraint) (off : nat) (z : Z) :
  column_offset schema colname 0 = Some off ->
  resultrow !! off = Some (VInt64 z) ->
  (- 2 ^ 63 < z - expectedValue con < 2 ^ 63)%Z ->
  check schema resultrow colname con = Some [] <->
  if (allowedError con =? 0)%Z then z = expectedValue con
  else (Z.abs (z - expectedValue con) <= allowedError con)%Z.
Proof.
  intros Hoff Hrow Hfit. unfold check. rewrite Hoff, Hrow. simpl.
  destruct (allowedError con =? 0)%Z.
  - destruct (Z.eqb_spec z (expectedValue con)) as [He|He]; simpl.
    + split; auto.
    + split; [discriminate|congruence].
  - rewrite (wrap_int_small (z - expectedValue con)) by lia.
    destruct (Z.ltb_spec (z - expectedValue con) 0) as [Hneg|Hpos].
    + rewrite wrap_int_small by lia.
      destruct (Z.ltb_spec (allowedError con) (- (z - expectedValue con)));
        split; try discriminate; try reflexivity; intros; try lia.
    + destruct (Z.ltb_spec (allowedError con) (z - expectedValue con));
        split; try discriminate; try reflexivity; intros; try lia.
Qed.

Lemma check_accepts_iff_witness :
  let schema := ["total_rows"; "distinct_count_x"] in
  let resultrow := [VInt64 10; VInt64 97] in
  let con := {| projection := "APPROX_COUNT_DISTINCT(x) AS distinct_count_x";
                expectedValue := 100; allowedError := 5 |} in
  check schema resultrow "distinct_count_x" con = Some [] <->
  (Z.abs (97 - 100) <= 5)%Z.
Proof.
  apply (check_accepts_iff ["total_rows"; "distinct_count_x"]
           [VInt64 10; VInt64 97] "distinct_count_x"
           {| projection := "APPROX_COUNT_DISTINCT(x) AS distinct_count_x";
              expectedValue := 100; allowedError := 5 |} 1 97).
  - reflexivity.
  - reflexivity.
  - simpl. lia.
Defined.


(** X16. The blind spot of the error bound: when the value and the expected
    one are exactly [2^63] apart (the least [int64] against 0, say), the
    difference wraps to the least [int64], which its own negation leaves
    negative, and the check reports nothing for any allowed error other
    than 0. *)
Theorem check_accepts_at_wrapped_distance (schema : list string)
    (resultrow : list Value) (colname : string) (con : constraint)
    (off : nat) (z : Z) :
  column_offset schema colname 0 = Some off ->
  resultrow !! off = Some (VInt64 z) ->
  Z.abs (z - expectedValue con) = (2 ^ 63)%Z ->
  allowedError con <> 0%Z ->
  (- 2 ^ 63 <= allowedError con)%Z ->
  check schema resultrow colname con = Some [].
Proof.
  intros Hoff Hrow Hdist Hne Hrange. unfold check. rewrite Hoff, Hrow. simpl.
  apply Z.eqb_neq in Hne. rewrite Hne.
  assert (Hw : wrap_int (z - expectedValue con) = (- 2 ^ 63)%Z).
  { destruct (Z.abs_spec (z - expectedValue con)) as [[_ He]|[_ He]];
      rewrite He in Hdist.
    - rewrite Hdist. reflexivity.
    - replace (z - expectedValue con)%Z with (- 2 ^ 63)%Z by lia. reflexivity. }
  rewrite Hw. change (- 2 ^ 63 <? 0)%Z with true. cbv iota.
  change (wrap_int (- - 2 ^ 63)) with (- 2 ^ 63)%Z.
  apply Z.ltb_ge in Hrange. now rewrite Hrange.
Qed.

Lemma check_accepts_at_wrapped_distance_witness :
  check ["total_rows"] [VInt64 (- 2 ^ 63)] "total_rows"
        {| projection := "COUNT(1) AS total_rows";
           expectedValue := 0; allowedError := 1 |}
  = Some [].
Proof.
  apply (check_accepts_at_wrapped_distance _ _ _ _ 0 (- 2 ^ 63)).
  - reflexivity.
  - reflexivity.
  - reflexivity.
  - discriminate.
  - simpl. lia.
Defined.

(** X17. A value that is not an [int64] is reported as a type mismatch and
    the check then goes on as if the value were 0: its failures are that
    report followed by those of the same row with 0 in the column. *)
Theorem check_goes_on_after_type_mismatch (schema : list string)
    (resultrow : list Value) (colname : string) (con : constraint) (off : nat) :
  column_offset schema colname 0 = Some off ->
  resultrow !! off = Some VOther ->
  exists fs,
    check schema (<[off := VInt64 0]> resultrow) colname con = Some fs /\
    check schema resultrow colname con = Some (TypeMismatch colname :: fs).
Proof.
  intros Hoff Hrow. unfold check. rewrite Hoff, Hrow.
  rewrite list_lookup_insert_eq by (eapply lookup_lt_Some; exact Hrow).
  simpl. destruct (allowedError con =? 0)%Z; eexists; split; reflexivity.
Qed.

Lemma check_goes_on_after_type_mismatch_witness :
  check ["total_rows"] [VOther] "total_rows"
        {| projection := "COUNT(1) AS total_rows";
           expectedValue := 5; allowedError := 0 |}
  = Some [TypeMismatch "total_rows"; Mismatch "total_rows" 0 5].
Proof.
  destruct (check_goes_on_after_type_mismatch ["total_rows"] [VOther] "total_rows"
              {| projection := "COUNT(1) AS total_rows";
                 expectedValue := 5; allowedError := 0 |} 0 eq_refl eq_refl)
    as (fs & Hfs & Hcheck).
  rewrite Hcheck. f_equal. f_equal.
  vm_compute in Hfs. congruence.
Defined.

(** X18. The options [withDistinctValues] and [withApproxDistinctValues]
    write the same key for a column, so they cannot be combined on one
    column: whichever comes last replaces the other. *)
Theorem distinct_options_collide (colname : string) (n a e : Z)
    (vi : validationInfo) :
  withApproxDistinctValues colname a e (withDistinctValues colname n vi)
  = withApproxDistinctValues colname a e vi /\
  withDistinctValues colname n (withApproxDistinctValues colname a e vi)
  = withDistinctValues colname n vi.
Proof.
  unfold withApproxDistinctValues, withDistinctValues, put. simpl.
  split; f_equal; apply insert_insert_eq.
Qed.

Lemma check_all_silent schema resultrow cs :
  check_all schema resultrow cs = Some [] <->
  Forall (fun kc => check schema resultrow kc.1 kc.2 = Some []) cs.
Proof.
  induction cs as [|[k c] cs IH]; simpl.
  - split; [constructor|reflexivity].
  - destruct (check schema resultrow k c) as [fs|] eqn:Hc.
    + destruct (check_all schema resultrow cs) as [fs'|].
      * split.
        -- intros H. inversion H as [Happ]. apply app_eq_nil in Happ as [-> ->].
           constructor; [exact Hc|]. now apply IH.
        -- intros H. apply Forall_cons in H as [H1 H2]. simpl in H1.
           apply IH in H2. rewrite Hc in H1. inversion H1; inversion H2; subst.
           reflexivity.
      * split; [discriminate|]. intros H. apply Forall_cons in H as [_ H2].
        apply IH in H2. discriminate.
    + split; [discriminate|]. intros H. apply Forall_cons in H as [H1 _].
      simpl in H1. congruence.
Qed.

(** X19. Whatever the order in which the map of constraints is visited,
    [validateTableConstraints] reports nothing exactly when at least one
    constraint was given, the query returned a row, and the check of every
    constraint on that row reports nothing. *)
Theorem validate_silent_iff (query : string -> query_outcome)
    (range_sql range_check : gmap string constraint -> list (string * constraint))
    (table : Table) (opts : list constraintOption) :
  (forall m, range_check m ≡ₚ map_to_list m) ->
  let vi := foldl (fun vi o => o vi) {| constraints := ∅ |} opts in
  validateTableConstraints query range_sql range_check table opts = Some [] <->
  constraints vi <> ∅ /\
  exists schema resultrow,
    query (sql_text (range_sql (constraints vi)) table) = Row schema resultrow /\
    forall k c, constraints vi !! k = Some c ->
                check schema resultrow k c = Some [].
Proof.
  intros Hperm vi. unfold validateTableConstraints. fold vi.
  assert (Hall : forall schema resultrow,
            check_all schema resultrow (range_check (constraints vi)) = Some [] <->
            forall k c, constraints vi !! k = Some c ->
                        check schema resultrow k c = Some []).
  { intros schema resultrow. rewrite check_all_silent, (Hperm (constraints vi)).
    rewrite Forall_forall. split.
    - intros H k c Hk. apply (H (k, c)). now apply elem_of_map_to_list.
    - intros H [k c] Hk. apply H. now apply elem_of_map_to_list. }
  destruct (decide (size (constraints vi) = 0)) as [Hz|Hnz].
  - apply map_size_empty_iff in Hz. split; [discriminate|]. intros [Hne _]. destruct (Hne Hz).
  - assert (Hne : constraints vi <> ∅).
    { intros He. apply Hnz. now apply map_size_empty_iff. }
    destruct (query _) as [| |schema resultrow].
    + split; [discriminate|]. intros (_ & s & r & Hq & _). discriminate Hq.
    + split; [discriminate|]. intros (_ & s & r & Hq & _). discriminate Hq.
    + rewrite Hall. split.
      * intros H. split; [exact Hne|]. exists schema, resultrow. auto.
      * intros (_ & s & r & Hq & H). inversion Hq; subst. exact H.
Qed.

Lemma validate_silent_iff_witness :
  let query := fun _ : string =>
    Row ["total_rows"; "distinct_count_x"] [VInt64 3; VInt64 97] in
  let table := {| ProjectID := "p"; DatasetID := "d"; TableID := "t" |} in
  let opts := [withExactRowCount 3; withApproxDistinctValues "x" 100 5] in
  let vi := foldl (fun vi o => o vi) {| constraints := ∅ |} opts in
  validateTableConstraints query map_to_list map_to_list table opts = Some [] /\
  (validateTableConstraints query map_to_list map_to_list table opts = Some [] <->
   constraints vi <> ∅ /\
   exists schema resultrow,
     query (sql_text (map_to_list (constraints vi)) table) = Row schema resultrow /\
     forall k c, constraints vi !! k = Some c ->
                 check schema resultrow k c = Some []).
Proof.
  split; [vm_compute; reflexivity|].
  apply (validate_silent_iff
           (fun _ : string =>
              Row ["total_rows"; "distinct_count_x"] [VInt64 3; VInt64 97])
           map_to_list map_to_list
           {| ProjectID := "p"; DatasetID := "d"; TableID := "t" |}
           [withExactRowCount 3; withApproxDistinctValues "x" 100 5]).
  intros m. reflexivity.
Defined.

End ManagedWriterFacts.
